(** * Verification of the record storefront front-end

    A shallow embedding of the pure and state-passing parts of the
    storefront (price formatting, IPFS URL resolution, the Buy page, the
    My Records and Store collection views, the Owner page and the record
    card) together with the properties its specification states.

    Conventions.
    - A JavaScript string is the list of its code units.  Code units are
      [ascii] values, so the strings covered are those whose code units are
      below 256.
    - A [bigint] is a [Z]; a value that may be [undefined] or [null] is an
      [option].
    - A computation that may throw returns a [completion]. *)

From Stdlib Require Import ZArith NArith Ascii String.
From stdpp Require Import base numbers option list strings gmap sorting.

Local Open Scope N_scope.
Local Open Scope list_scope.

(** ** JavaScript strings *)

Abbreviation jsstring := (list ascii).

(** String literals are written with Rocq's string notation. *)
Definition lit (s : string) : jsstring := list_ascii_of_string s.
Coercion lit : string >-> list.

(** ** Completions: normal results and thrown errors *)

Inductive JsError : Type :=
  | SyntaxError
  | RangeError
  | TypeError
  | Error (message : jsstring).

Inductive completion (A : Type) : Type :=
  | Normal (a : A)
  | Throw (e : JsError).
Arguments Normal {A} a.
Arguments Throw {A} e.

Definition cbind {A B} (c : completion A) (k : A -> completion B) : completion B :=
  match c with
  | Normal a => k a
  | Throw e => Throw e
  end.

#[global] Instance completion_ret : MRet completion := @Normal.
#[global] Instance completion_bind : MBind completion :=
  fun A B k c => cbind c k.

(** [try { body } catch { handler }] *)
Definition try_catch {A} (body : completion A) (handler : JsError -> completion A)
  : completion A :=
  match body with
  | Normal a => Normal a
  | Throw e => handler e
  end.

(** ** String primitives *)

Module JsString.

Definition code (c : ascii) : N := N_of_ascii c.

(** WhiteSpace and LineTerminator code units below 256: TAB, LF, VT, FF,
    CR, SP and NBSP. *)
Definition is_white_space (c : ascii) : bool :=
  let n := code c in
  (n =? 9) || (n =? 10) || (n =? 11) || (n =? 12) || (n =? 13)
  || (n =? 32) || (n =? 160).

Fixpoint trimStart (s : jsstring) : jsstring :=
  match s with
  | [] => []
  | c :: t => if is_white_space c then trimStart t else s
  end.

Fixpoint trimEnd (s : jsstring) : jsstring :=
  match s with
  | [] => []
  | c :: t =>
      match trimEnd t with
      | [] => if is_white_space c then [] else [c]
      | t' => c :: t'
      end
  end.

(** [String.prototype.trim] *)
Definition trim (s : jsstring) : jsstring := trimEnd (trimStart s).

(** The filler of [padStart]: [fillString], which is not empty, repeated
    and truncated to [fillLen] code units. *)
Definition repeat_truncated (fillString : jsstring) (fillLen : nat) : jsstring :=
  take fillLen (mjoin (replicate fillLen fillString)).

(** [String.prototype.padStart(maxLength, fillString)] *)
Definition padStart (maxLength : nat) (fillString : jsstring) (s : jsstring)
  : jsstring :=
  let stringLength := length s in
  if decide (maxLength <= stringLength)%nat then s
  else match fillString with
       | [] => s
       | _ =>
           let fillLen := (maxLength - stringLength)%nat in
           repeat_truncated fillString fillLen ++ s
       end.

(** [s.replace(/0+$/, "")]: the only match of [0+$] is the maximal run of
    ["0"] code units that ends the string; it is removed. *)
Fixpoint replace_trailing_zeros (s : jsstring) : jsstring :=
  match s with
  | [] => []
  | c :: t =>
      match replace_trailing_zeros t with
      | [] => if Ascii.eqb c "0" then [] else [c]
      | t' => c :: t'
      end
  end.

(** [StringIndexOf(s, searchValue, 0)]: the least index at which
    [searchValue] occurs in [s]; [None] stands for -1. *)
Fixpoint indexOf (searchValue s : jsstring) : option nat :=
  if bool_decide (searchValue `prefix_of` s) then Some O
  else match s with
       | [] => None
       | _ :: t => S <$> indexOf searchValue t
       end.

(** [s.replace(searchValue, replaceValue)] for a string pattern and a
    replacement without [$] patterns: the first occurrence is replaced. *)
Definition replace (searchValue replaceValue s : jsstring) : jsstring :=
  match indexOf searchValue s with
  | None => s
  | Some pos =>
      take pos s ++ replaceValue ++ drop (pos + length searchValue)%nat s
  end.

End JsString.

(** ** BigInt primitives *)

Module JsBigInt.
Import JsString.

(** Value of a digit in a radix up to 36. *)
Definition digit_value (c : ascii) : option N :=
  let n := code c in
  if (48 <=? n) && (n <=? 57) then Some (n - 48)
  else if (97 <=? n) && (n <=? 122) then Some (n - 87)
  else if (65 <=? n) && (n <=? 90) then Some (n - 55)
  else None.

Fixpoint digits_value (radix : N) (s : jsstring) (acc : N) : option N :=
  match s with
  | [] => Some acc
  | c :: t =>
      match digit_value c with
      | Some d => if d <? radix then digits_value radix t (acc * radix + d) else None
      | None => None
      end
  end.

(** One or more digits of the radix. *)
Definition parse_digits (radix : N) (s : jsstring) : option N :=
  match s with
  | [] => None
  | _ => digits_value radix s 0
  end.

(** [StringToBigInt]: surrounding white space is ignored, the empty
    string is 0, a [0x], [0o] or [0b] prefix selects the radix, and a
    decimal literal may carry a sign.  [None] is the failure that makes
    [BigInt] throw a SyntaxError. *)
Definition StringToBigInt (str : jsstring) : option Z :=
  match trim str with
  | [] => Some 0%Z
  | c0 :: rest =>
      let non_decimal (radix : N) :=
        match rest with
        | _ :: ds => Z.of_N <$> parse_digits radix ds
        | [] => None
        end in
      let prefixed (lower upper : ascii) :=
        Ascii.eqb c0 "0" &&
        match rest with
        | c1 :: _ => Ascii.eqb c1 lower || Ascii.eqb c1 upper
        | [] => false
        end in
      if prefixed "x"%char "X"%char then non_decimal 16
      else if prefixed "o"%char "O"%char then non_decimal 8
      else if prefixed "b"%char "B"%char then non_decimal 2
      else if Ascii.eqb c0 "+" then Z.of_N <$> parse_digits 10 rest
      else if Ascii.eqb c0 "-" then (fun n => (- Z.of_N n)%Z) <$> parse_digits 10 rest
      else Z.of_N <$> parse_digits 10 (c0 :: rest)
  end.

(** [BigInt(value)] on a string argument. *)
Definition BigInt (value : jsstring) : completion Z :=
  match StringToBigInt value with
  | Some z => Normal z
  | None => Throw SyntaxError
  end.

(** [x / y] on bigints: truncating division, RangeError on a zero divisor. *)
Definition div (x y : Z) : completion Z :=
  if decide (y = 0%Z) then Throw RangeError else Normal (Z.quot x y).

(** [x % y] on bigints: the remainder has the sign of the dividend. *)
Definition rem (x y : Z) : completion Z :=
  if decide (y = 0%Z) then Throw RangeError else Normal (Z.rem x y).

Definition digit_char (d : N) : ascii := ascii_of_N (48 + d).

Fixpoint N_digits (fuel : nat) (n : N) : jsstring :=
  match fuel with
  | O => []
  | S fuel' =>
      if n <? 10 then [digit_char n]
      else N_digits fuel' (n / 10) ++ [digit_char (n mod 10)]
  end.

(** Decimal digits of a natural number, most significant first.  The
    number of binary digits bounds the number of decimal ones. *)
Definition N_toString (n : N) : jsstring :=
  N_digits (S (N.to_nat (N.log2 n))) n.

(** [BigInt.prototype.toString()] in radix 10. *)
Definition toString (x : Z) : jsstring :=
  match x with
  | Z0 => "0"
  | Zpos p => N_toString (Npos p)
  | Zneg p => "-" ++ N_toString (Npos p)
  end.

End JsBigInt.

(** ** utils/formatPrice.ts *)

(** [BigInt(10 ** 18)]: the number 10 ** 18 is an exact double. *)
Definition WEI_PER_ETH : Z := 10 ^ 18.

Definition formatETHPrice_body (priceStr : jsstring) : completion jsstring :=
  bigIntPrice ← JsBigInt.BigInt priceStr;
  whole ← JsBigInt.div bigIntPrice WEI_PER_ETH;
  fraction ← JsBigInt.rem bigIntPrice WEI_PER_ETH;
  let wholeStr := JsBigInt.toString whole in
  let fractionStr := JsString.padStart 18 "0" (JsBigInt.toString fraction) in
  let trimmedFraction := JsString.replace_trailing_zeros fractionStr in
  match trimmedFraction with
  | [] => Normal (wholeStr ++ ".0000 ETH")
  | _ => Normal (wholeStr ++ "." ++ trimmedFraction ++ " ETH")
  end.

Definition formatETHPrice (priceStr : jsstring) : completion jsstring :=
  try_catch (formatETHPrice_body priceStr) (fun _ => Normal priceStr).

(** ** utils/resolveForIpfs.ts *)

(** The part of [window] the resolver reads. *)
Record Window : Type := { location_hostname : jsstring }.

Definition IPFS_SCHEME : jsstring := "ipfs://".
Definition LOCAL_GATEWAY : jsstring := "http://127.0.0.1:8080/ipfs/".
Definition PUBLIC_GATEWAY : jsstring := "https://ipfs.io/ipfs/".

Definition resolveIpfsUrl (window : Window) (ipfsUri : jsstring) : jsstring :=
  let cid := JsString.replace IPFS_SCHEME "" ipfsUri in
  if decide (location_hostname window = "localhost")
  then LOCAL_GATEWAY ++ cid
  else PUBLIC_GATEWAY ++ cid.

(** ** app/buy-record/[contractAddress]/page.tsx *)

Module BuyPage.

(** A field of the indexer node is [None] when it is [undefined]. *)
Record RecordEmitData : Type := {
  artist : option jsstring;
  name : option jsstring;
  symbol : option jsstring;
}.

(** What [useReadContracts] returns with [allowFailure: false]: either all
    four values or none. *)
Record ReadContracts : Type := {
  rc_data : option (Z * Z * Z * jsstring);
  rc_isLoading : bool;
  rc_isError : bool;
  rc_error : option jsstring;
}.

Record ContractData : Type := {
  mintPrice : option Z;
  supply : option Z;
  tokenCount : option Z;
  previewImageUrl : option jsstring;
  isLoading : bool;
  error : option jsstring;
  isError : bool;
}.

Definition useContractData (window : Window) (result : ReadContracts) : ContractData :=
  match rc_data result with
  | Some (p, s, n, previewImageURI) =>
      {| mintPrice := Some p;
         supply := Some s;
         tokenCount := Some n;
         previewImageUrl :=
           match previewImageURI with
           | [] => None
           | _ => Some (resolveIpfsUrl window previewImageURI)
           end;
         isLoading := rc_isLoading result;
         error := rc_error result;
         isError := rc_isError result |}
  | None =>
      {| mintPrice := None; supply := None; tokenCount := None;
         previewImageUrl := None;
         isLoading := rc_isLoading result;
         error := rc_error result;
         isError := rc_isError result |}
  end.

(** Everything one render of the page reads. *)
Record PageState : Type := {
  window : Window;
  imageError : bool;
  isConnected : bool;
  isMintPending : bool;
  recordEmitData : option RecordEmitData;
  isRecordEmitDataLoading : bool;
  readContracts : ReadContracts;
}.

(** The last block of the page, below the text info. *)
Inductive Stats : Type :=
  | AllRecordsMinted
  | PleaseConnectAWallet
  | MintControl (label : jsstring) (disabled : bool) (price : jsstring)
      (minted total : Z).

Inductive View : Type :=
  | Loading
  | NoListingData
  | ErrorLoadingContractData (message : option jsstring)
  | Listing (previewSrc : jsstring) (imageNotAvailable : bool)
      (title by_artist : jsstring) (stats : Stats).

Definition BuyRecordPage (st : PageState) : completion View :=
  let contractData := useContractData (window st) (readContracts st) in
  if isRecordEmitDataLoading st || isLoading contractData then Normal Loading
  else
    match recordEmitData st with
    | Some {| artist := Some artist_; name := Some name_; symbol := Some symbol_ |} =>
        match isError contractData, mintPrice contractData, supply contractData,
              tokenCount contractData, previewImageUrl contractData with
        | false, Some mintPrice_, Some supply_, Some tokenCount_, Some previewImageUrl_ =>
            stats ←
              (if (tokenCount_ >=? supply_)%Z then Normal AllRecordsMinted
               else if negb (isConnected st) then Normal PleaseConnectAWallet
               else
                 price ← formatETHPrice (JsBigInt.toString mintPrice_);
                 Normal
                   (MintControl
                      (if isMintPending st then lit "Waiting for Signature..."
                       else "Mint " ++ symbol_)
                      (isMintPending st || (tokenCount_ >=? supply_)%Z)
                      price tokenCount_ supply_));
            Normal (Listing previewImageUrl_ (imageError st) name_ artist_ stats)
        | _, _, _, _, _ => Normal (ErrorLoadingContractData (error contractData))
        end
    | _ => Normal NoListingData
    end.

End BuyPage.

(** ** The My Records view (components/Home) *)

Module MyRecords.

Record DeployedRecord : Type := {
  record : option jsstring;      (* [None] when null or undefined *)
  artist : jsstring;
  name : jsstring;
  contractAddress : jsstring;    (* the factory address *)
}.

Record SanitizedRecord : Type := {
  s_contractAddress : jsstring;
  s_name : jsstring;
  s_artist : jsstring;
}.

Record OwnedItem : Type := {
  o_contractAddress : jsstring;
  o_name : jsstring;
  o_artist : jsstring;
  o_tokenId : Z;
}.

(** One element of what [useReadContracts] returns by default. *)
Inductive ReadResult : Type :=
  | ReadSuccess (result : option (list Z))
  | ReadFailure (error : JsError).

Inductive ConsoleEntry : Type :=
  | WarnInvalidRecordAddress (recordJson : jsstring)
  | WarnReadFailure (contractAddress : jsstring) (error : JsError).

(** One call of the batched read. *)
Record ContractCall : Type := {
  call_address : jsstring;
  call_functionName : jsstring;
  call_args : list (option jsstring);
}.

Definition toLowerCase_unit (c : ascii) : ascii :=
  let n := JsString.code c in
  if ((65 <=? n) && (n <=? 90)) || ((192 <=? n) && (n <=? 222) && negb (n =? 215))
  then ascii_of_N (n + 32) else c.

(** [String.prototype.toLowerCase] *)
Definition toLowerCase (s : jsstring) : jsstring := toLowerCase_unit <$> s.

Section Viem.
(** The two functions taken from the viem library: [getAddress] returns
    the checksummed form of an address or throws, [isAddress] tells
    whether a string is an address. *)
Variable getAddress : jsstring -> completion jsstring.
Variable isAddress : jsstring -> bool.
(** [JSON.stringify] on a string. *)
Variable JSON_stringify : jsstring -> jsstring.

(** Trim + checksum; undefined if invalid. *)
Definition normalizeAddress (raw : option jsstring) : option jsstring :=
  match raw with
  | None | Some [] => None
  | Some raw =>
      match JsString.trim raw with
      | [] => None
      | t =>
          match getAddress t with
          | Normal checksummed => Some checksummed
          | Throw _ => None           (* catch { return undefined } *)
          end
      end
  end.

Definition sanitize_step (acc : list SanitizedRecord * list ConsoleEntry)
    (r : DeployedRecord) : list SanitizedRecord * list ConsoleEntry :=
  let '(list, console) := acc in
  match normalizeAddress (record r) with
  | Some ((_ :: _) as addr) =>
      (list ++ [{| s_contractAddress := addr; s_name := name r; s_artist := artist r |}],
       console)
  | _ =>                                   (* if (!addr) { ...; continue } *)
      match record r with
      | Some (c :: raw) =>
          if negb (isAddress (JsString.trim (c :: raw)))
          then (list, console ++ [WarnInvalidRecordAddress (JSON_stringify (c :: raw))])
          else (list, console)
      | _ => (list, console)
      end
  end.

(** Step 2 of the component: the sanitized list and what it writes to
    the console. *)
Definition sanitizedRecords_run (deployedRecords : list DeployedRecord)
  : list SanitizedRecord * list ConsoleEntry :=
  fold_left sanitize_step deployedRecords ([], []).

Definition sanitizedRecords (deployedRecords : list DeployedRecord)
  : list SanitizedRecord :=
  fst (sanitizedRecords_run deployedRecords).

End Viem.

(** Step 3: the [contracts] argument of the batched read. *)
Definition contracts (sanitized : list SanitizedRecord) (userAddress : option jsstring)
  : list ContractCall :=
  (fun r => {| call_address := s_contractAddress r;
               call_functionName := "tokensOfOwner";
               call_args := [userAddress] |}) <$> sanitized.

Definition reads_enabled (sanitized : list SanitizedRecord)
    (userAddress : option jsstring) : bool :=
  match userAddress with
  | Some (_ :: _) => (0 <? length sanitized)%nat
  | _ => false
  end.

(** Step 4: one iteration of the loop over the indices.  The object used
    as a map is a finite map from lowercased addresses to token ids. *)
Definition ownedTokens_step (sanitized : list SanitizedRecord)
    (readResults : list ReadResult)
    (acc : gmap jsstring (list Z) * list ConsoleEntry) (i : nat)
  : gmap jsstring (list Z) * list ConsoleEntry :=
  let '(map, console) := acc in
  match sanitized !! i with
  | None => acc
  | Some rec =>
      match readResults !! i with
      | Some (ReadSuccess result) =>
          let tokenIds := default [] result in
          if (0 <? length tokenIds)%nat
          then (<[toLowerCase (s_contractAddress rec) := tokenIds]> map, console)
          else acc
      | Some (ReadFailure error) =>
          (map, console ++ [WarnReadFailure (s_contractAddress rec) error])
      | None => acc
      end
  end.

(** Step 4: the effect.  It leaves the state alone unless the read has
    succeeded, otherwise it replaces the map by a freshly built one. *)
Definition ownedTokens_effect (readSuccess : bool)
    (readResults : option (list ReadResult)) (sanitized : list SanitizedRecord)
    (state : gmap jsstring (list Z) * list ConsoleEntry)
  : gmap jsstring (list Z) * list ConsoleEntry :=
  match readSuccess, readResults with
  | true, Some readResults =>
      fold_left (ownedTokens_step sanitized readResults)
        (seq 0 (length sanitized)) (∅, snd state)
  | _, _ => state
  end.

(** Step 5, inner loop: one item per token id of a record. *)
Definition push_items (rec : SanitizedRecord) (tokenIds : list Z)
    (items : list OwnedItem) : list OwnedItem :=
  fold_left
    (fun items tokenId =>
       items ++ [{| o_contractAddress := s_contractAddress rec;
                    o_name := s_name rec;
                    o_artist := s_artist rec;
                    o_tokenId := tokenId |}])
    tokenIds items.

(** Step 5, outer loop body. *)
Definition ownedItems_step (ownedTokensByContract : gmap jsstring (list Z))
    (items : list OwnedItem) (rec : SanitizedRecord) : list OwnedItem :=
  match ownedTokensByContract !! toLowerCase (s_contractAddress rec) with
  | None | Some [] => items           (* if (!tokenIds?.length) continue *)
  | Some tokenIds => push_items rec tokenIds items
  end.

(** Step 5: one render item per token. *)
Definition ownedItems (sanitized : list SanitizedRecord)
    (ownedTokensByContract : gmap jsstring (list Z)) : list OwnedItem :=
  fold_left (ownedItems_step ownedTokensByContract) sanitized [].

Inductive Element : Type :=
  | Heading (text : jsstring)
  | LoadingMessage
  | FailedToLoad (errorMsg : option jsstring)
  | NoRecordsMessage                       (* "You don’t own any records yet." *)
  | Grid (cards : list OwnedItem).

(** What the returned JSX reads: state cells, hook results and the
    memoized [ownedItems]. *)
Record RenderState : Type := {
  isFetching : bool;
  fetchError : option jsstring;
  isReading : bool;
  readError : bool;
  readErrObj : option jsstring;
  items : list OwnedItem;
}.

(** The JSX the component returns. *)
Definition render (st : RenderState) : list Element :=
  let loading := isFetching st || isReading st in
  let anyError :=
    match fetchError st with Some (_ :: _) => true | _ => false end   (* !!fetchError *)
    || readError st in
  let errorMsg := match fetchError st with Some e => Some e | None => readErrObj st end in
  [Heading "Your Record Collection"]
  ++ (if loading then [LoadingMessage] else [])
  ++ (if anyError then [FailedToLoad errorMsg] else [])
  ++ (if negb loading && negb anyError && (length (items st) =? 0)%nat
      then [NoRecordsMessage] else [])
  ++ [Grid (items st)].

End MyRecords.

(** ** The Store view (components/Store) *)

Module Store.

Record DeployedRecord : Type := {
  record : jsstring;
  artist : jsstring;
  name : jsstring;
  symbol : jsstring;
  contractAddress : jsstring;
  txHash : jsstring;
  blockNumber : Z;
  txIndex : Z;
}.

(** The response body, with the parts that optional chaining guards. *)
Record Payload : Type := {
  allRecordDeployeds : option (option (list DeployedRecord));   (* its [nodes] *)
}.
Record RecordQueryResponse : Type := { r_data : option Payload }.

(** What [useQuery] returns. *)
Record Query : Type := {
  data : option RecordQueryResponse;
  isLoading : bool;
  error : option JsError;
}.

(** Props of one card. *)
Record Card : Type := {
  key : jsstring;
  c_contractAddress : jsstring;
  c_name : jsstring;
  c_artist : jsstring;
}.

Inductive Element : Type :=
  | Heading (text : jsstring)
  | LoadingMessage
  | ErrorLoadingRecords
  | Grid (cards : list Card).

(** [data?.data?.allRecordDeployeds.nodes ?? []]: the last member access
    is not guarded. *)
Definition records (q : Query) : completion (list DeployedRecord) :=
  match data q with
  | None => Normal []
  | Some response =>
      match r_data response with
      | None => Normal []
      | Some payload =>
          match allRecordDeployeds payload with
          | None => Throw TypeError
          | Some nodes => Normal (default [] nodes)
          end
      end
  end.

Definition Store (q : Query) : completion (list Element) :=
  records ← records q;
  Normal
    ([Heading "Recent Releases"]
     ++ (if isLoading q then [LoadingMessage] else [])
     ++ (if error q is Some _ then [ErrorLoadingRecords] else [])
     ++ [Grid ((fun r => {| key := record r;
                            c_contractAddress := record r;
                            c_name := name r;
                            c_artist := artist r |}) <$> records)]).

End Store.

(** ** Array.prototype.sort *)

Module JsArray.
Section Sort.
Context {A : Type} (comparefn : A -> A -> Z).

Fixpoint insert (x : A) (sorted : list A) : list A :=
  match sorted with
  | [] => [x]
  | y :: rest =>
      if (comparefn x y <=? 0)%Z then x :: sorted else y :: insert x rest
  end.

(** [Array.prototype.sort(comparefn)] for a consistent comparison
    function.  The language leaves the algorithm open but requires a
    stable sort, which fixes the result: the elements in ascending order,
    those that compare equal in their original order.  Insertion from the
    right computes it. *)
Definition sort (l : list A) : list A := foldr insert [] l.
End Sort.
End JsArray.

(** ** The Owner page (app/owner/[contractAddress]/[tokenId]) *)

Module OwnerPage.

(** Track numbers are modelled as integers; [None] is a missing one. *)
Record Song : Type := {
  track : option Z;
  title : jsstring;
  artist : jsstring;
  duration : option jsstring;
  audio : jsstring;
}.

Record RecordMetadata : Type := {
  name : jsstring;
  m_artist : option jsstring;
  image : option jsstring;
  description : option jsstring;
  animation_url : option jsstring;
  songs : option (list Song);
}.

Record TrackItem : Type := {
  t_track : option Z;
  t_title : jsstring;
  t_artist : jsstring;
  t_duration : option jsstring;
  audioSrc : jsstring;
}.

Inductive Tracks : Type :=
  | NoTracksFound
  | TrackList (items : list TrackItem).

(** [(a, b) => (a.track ?? 0) - (b.track ?? 0)] *)
Definition compareTracks (a b : Song) : Z :=
  (default 0 (track a) - default 0 (track b))%Z.

Definition renderSong (window : Window) (song : Song) : TrackItem :=
  let audioSrc := resolveIpfsUrl window (audio song) in
  {| t_track := track song;
     t_title := title song;
     t_artist := artist song;
     t_duration := duration song;
     audioSrc := audioSrc |}.

(** The "Songs" block of the page, without the React keys of its items. *)
Definition OwnerRecordPage_tracks (window : Window)
    (metadata : option RecordMetadata) : Tracks :=
  match metadata with
  | Some {| songs := Some ((_ :: _) as songs_) |} =>
      TrackList (renderSong window <$> JsArray.sort compareTracks songs_)
  | _ => NoTracksFound
  end.

End OwnerPage.

(** ** The record card (components/RecordBox) *)

Module RecordBox.

(** A number, as far as [BigInt(number)] tells numbers apart: integral,
    or not (fractional, NaN or infinite). *)
Inductive number : Type :=
  | Integral (z : Z)
  | NonIntegral.

Inductive TokenId : Type :=
  | IdBigInt (id : Z)
  | IdNumber (id : number)
  | IdString (id : jsstring).

Inductive Variant : Type :=
  | Market
  | Owned (tokenId : TokenId).

Record Props : Type := {
  variant : Variant;
  contractAddress : jsstring;
  name : jsstring;
  artist : jsstring;
}.

(** Small helper to coerce tokenId to BigInt for on-chain reads *)
Definition toBigIntId (id : TokenId) : completion Z :=
  match id with
  | IdBigInt id => Normal id
  | IdNumber (Integral z) => Normal z
  | IdNumber NonIntegral => Throw RangeError
  | IdString id => JsBigInt.BigInt id
  end.

Inductive ReadConfig : Type :=
  | previewImageURI
  | tokenURI (tokenId : Z).

Definition readConfig (props : Props) : completion ReadConfig :=
  match variant props with
  | Market => Normal previewImageURI
  | Owned tokenId => id ← toBigIntId tokenId; Normal (tokenURI id)
  end.

(** What [useReadContract] returns. *)
Record ReadContract : Type := {
  data : option jsstring;
  isLoading : bool;
  error : option JsError;
}.

(** The three state cells of the hook. *)
Record ImageState : Type := {
  imageUrl : option jsstring;
  isLoadingImage : bool;
  imageError : option JsError;
}.

Definition initialImageState : ImageState :=
  {| imageUrl := None; isLoadingImage := false; imageError := None |}.

(** How [fetch(metadataUrl)] and [res.json()] turn out.  The body is
    [None] for a JSON null; its [image] is [None] when absent. *)
Inductive FetchOutcome : Type :=
  | FetchRejected (e : JsError)
  | Response (ok : bool) (status : Z) (json : completion (option (option jsstring))).

(** The body of the [try] block of the effect. *)
Definition resolveImage (window : Window) (v : Variant) (onchainURI : jsstring)
    (fetch : jsstring -> FetchOutcome) : completion jsstring :=
  match v with
  | Market => Normal (resolveIpfsUrl window onchainURI)
  | Owned _ =>
      let metadataUrl := resolveIpfsUrl window onchainURI in
      match fetch metadataUrl with
      | FetchRejected e => Throw e
      | Response ok status json =>
          if negb ok
          then Throw (Error ("Failed to fetch token metadata: " ++ JsBigInt.toString status))
          else
            json ← json;
            match json ≫= id with
            | None | Some [] => Throw (Error "No 'image' field in token metadata")
            | Some rawImage => Normal (resolveIpfsUrl window rawImage)
            end
      end
  end.

(** One run of the effect that is not cancelled, from its first state
    update to its last. *)
Definition runEffect (window : Window) (props : Props) (read : ReadContract)
    (fetch : jsstring -> FetchOutcome) (st : ImageState) : ImageState :=
  match data read with
  | None | Some [] => st
  | Some onchainURI =>
      if isLoading read then st
      else
        let st := {| imageUrl := imageUrl st; isLoadingImage := true; imageError := None |} in
        let st :=
          match resolveImage window (variant props) onchainURI fetch with
          | Normal resolved =>
              {| imageUrl := Some resolved; isLoadingImage := isLoadingImage st;
                 imageError := imageError st |}
          | Throw e =>
              {| imageUrl := None; isLoadingImage := isLoadingImage st;
                 imageError := Some e |}
          end in
        {| imageUrl := imageUrl st; isLoadingImage := false; imageError := imageError st |}
  end.

Record RecordImage : Type := {
  ri_imageUrl : option jsstring;
  ri_isLoading : bool;
  ri_error : option JsError;
}.

Definition useRecordImage (props : Props) (read : ReadContract) (st : ImageState)
  : completion RecordImage :=
  _ ← readConfig props;
  Normal {| ri_imageUrl := imageUrl st;
            ri_isLoading := isLoading read || isLoadingImage st;
            ri_error := match error read with Some e => Some e | None => imageError st end |}.

(** The image area of the card. *)
Inductive ImageArea : Type :=
  | LoadingPlaceholder
  | FallbackImage                     (* /placeholder.png *)
  | RecordImageAt (src : jsstring) (alt : jsstring).

Definition RecordBox (props : Props) (read : ReadContract) (st : ImageState)
  : completion ImageArea :=
  image ← useRecordImage props read st;
  let showFallback :=
    bool_decide (is_Some (ri_error image))
    || match ri_imageUrl image with None | Some [] => true | Some _ => false end in
  Normal
    (if ri_isLoading image then LoadingPlaceholder
     else if showFallback then FallbackImage
     else RecordImageAt (default [] (ri_imageUrl image)) (name props)).

End RecordBox.

(** ** Vocabulary of the price specification *)

Module PriceSpec.
Import JsString.

Definition is_digit (c : ascii) : bool := (48 <=? code c) && (code c <=? 57).

(** A string that represents a non-negative integer: one or more decimal
    digits. *)
Definition is_decimal (s : jsstring) : bool :=
  match s with
  | [] => false
  | _ => forallb is_digit s
  end.

(** The integer a digit string denotes. *)
Definition decimal_value (s : jsstring) : N :=
  fold_left (fun acc c => acc * 10 + (code c - 48)) s 0.

(** [w] is the decimal numeral of [q]: digits only, no leading zero. *)
Definition numeral_of (w : jsstring) (q : N) : Prop :=
  is_decimal w = true /\ decimal_value w = q /\ (w = "0" \/ head w <> Some "0"%char).

(** [f] is the 18-digit, zero-padded form of [r] without its trailing
    zeros. *)
Definition trimmed_fraction_of (f : jsstring) (r : N) : Prop :=
  forallb is_digit f = true /\ (length f <= 18)%nat /\ last f <> Some "0"%char /\
  decimal_value (f ++ replicate (18 - length f) "0"%char) = r.

(** What is shown after the point. *)
Definition shown_fraction (trimmed : jsstring) : jsstring :=
  match trimmed with
  | [] => "0000"
  | _ => trimmed
  end.

End PriceSpec.

(** ** Vocabulary of the URL specification *)

Module UrlSpec.

(** [pattern] occurs in [s] at index [i]. *)
Definition occurs_at (pattern s : jsstring) (i : nat) : Prop :=
  exists before after : jsstring,
    s = before ++ pattern ++ after /\ length before = i.

Definition contains (pattern s : jsstring) : Prop :=
  exists i, occurs_at pattern s i.

(** The gateway prefix selected for the page. *)
Definition selected_gateway (window : Window) : jsstring :=
  if decide (location_hostname window = "localhost")
  then lit "http://127.0.0.1:8080/ipfs/"
  else lit "https://ipfs.io/ipfs/".

(** A page that is not served from the development host. *)
Definition shop_window : Window := {| location_hostname := "shop.example" |}.

End UrlSpec.

(** ** Vocabulary of the Buy page specification *)

Module BuySpec.
Import BuyPage.

(** The stats block of a render, when the listing is rendered. *)
Definition stats_of (c : completion View) : option Stats :=
  match c with
  | Normal (Listing _ _ _ _ stats) => Some stats
  | _ => None
  end.

(** The guard clauses in front of the listing: nothing is loading, the
    indexer data is complete, no contract read failed and all four
    contract values are there, the preview URI not being empty. *)
Definition guards_pass (st : PageState) : bool :=
  negb (isRecordEmitDataLoading st)
  && negb (rc_isLoading (readContracts st))
  && match recordEmitData st with
     | Some {| artist := Some _; name := Some _; symbol := Some _ |} => true
     | _ => false
     end
  && negb (rc_isError (readContracts st))
  && match rc_data (readContracts st) with
     | Some (_, _, _, _ :: _) => true
     | _ => false
     end.

Definition with_connection (connected : bool) (st : PageState) : PageState :=
  {| window := window st;
     imageError := imageError st;
     isConnected := connected;
     isMintPending := isMintPending st;
     recordEmitData := recordEmitData st;
     isRecordEmitDataLoading := isRecordEmitDataLoading st;
     readContracts := readContracts st |}.

(** A sold-out record the indexer has no listing for. *)
Definition sold_out_unlisted : PageState :=
  {| window := {| location_hostname := "localhost" |};
     imageError := false;
     isConnected := true;
     isMintPending := false;
     recordEmitData := None;
     isRecordEmitDataLoading := false;
     readContracts :=
       {| rc_data := Some (1000000000000000000, 5, 5, lit "ipfs://cover")%Z;
          rc_isLoading := false;
          rc_isError := false;
          rc_error := None |} |}.

(** The same record once it is listed. *)
Definition sold_out_listed : PageState :=
  {| window := {| location_hostname := "localhost" |};
     imageError := false;
     isConnected := false;
     isMintPending := false;
     recordEmitData :=
       Some {| artist := Some (lit "Artist"); name := Some (lit "Album");
               symbol := Some (lit "ALB") |};
     isRecordEmitDataLoading := false;
     readContracts := readContracts sold_out_unlisted |}.

(** A listed record with one copy left, seen with a wallet connected. *)
Definition on_sale : PageState :=
  {| window := {| location_hostname := "localhost" |};
     imageError := false;
     isConnected := true;
     isMintPending := false;
     recordEmitData := recordEmitData sold_out_listed;
     isRecordEmitDataLoading := false;
     readContracts :=
       {| rc_data := Some (50000000000000000, 5, 4, lit "ipfs://cover")%Z;
          rc_isLoading := false;
          rc_isError := false;
          rc_error := None |} |}.

(** The same record, had its contract an empty preview image URI. *)
Definition without_preview : PageState :=
  {| window := window on_sale;
     imageError := false;
     isConnected := true;
     isMintPending := false;
     recordEmitData := recordEmitData sold_out_listed;
     isRecordEmitDataLoading := false;
     readContracts :=
       {| rc_data := Some (50000000000000000, 5, 4, [])%Z;
          rc_isLoading := false;
          rc_isError := false;
          rc_error := None |} |}.

End BuySpec.

(** ** Vocabulary of the collection views specification *)

Module CollectionSpec.
Import MyRecords.

(** What is assumed of the library: [isAddress] rejects the empty string
    and every string [getAddress] rejects, and the checksummed form of an
    address is not the empty string. *)
Definition address_functions_agree
    (getAddress : jsstring -> completion jsstring) (isAddress : jsstring -> bool)
  : Prop :=
  isAddress [] = false
  /\ (forall t e, getAddress t = Throw e -> isAddress t = false)
  /\ (forall t, getAddress t <> Normal []).

Section Viem.
Variable getAddress : jsstring -> completion jsstring.
Variable JSON_stringify : jsstring -> jsstring.

(** The entry a deployment contributes when its address is valid. *)
Definition sanitized_for (r : DeployedRecord) : option SanitizedRecord :=
  addr ← normalizeAddress getAddress (record r);
  Some {| s_contractAddress := addr; s_name := name r; s_artist := artist r |}.

(** The ownership read issued for a deployment with a valid address. *)
Definition call_for (userAddress : option jsstring) (r : DeployedRecord)
  : option ContractCall :=
  addr ← normalizeAddress getAddress (record r);
  Some {| call_address := addr;
          call_functionName := "tokensOfOwner";
          call_args := [userAddress] |}.

(** The warning written for a deployment: one for each invalid address
    that is not the empty string. *)
Definition warning_for (r : DeployedRecord) : option ConsoleEntry :=
  match normalizeAddress getAddress (record r), record r with
  | None, Some (c :: raw) => Some (WarnInvalidRecordAddress (JSON_stringify (c :: raw)))
  | _, _ => None
  end.
End Viem.

(** The token ids the read of the contract at index [i] returned;
    none when that read failed. *)
Definition tokens_read (readResults : list ReadResult) (i : nat) : list Z :=
  match readResults !! i with
  | Some (ReadSuccess (Some tokenIds)) => tokenIds
  | _ => []
  end.

Definition item_of (rec : SanitizedRecord) (tokenId : Z) : OwnedItem :=
  {| o_contractAddress := s_contractAddress rec;
     o_name := s_name rec;
     o_artist := s_artist rec;
     o_tokenId := tokenId |}.

(** The flattening, over the valid contracts in order, of one item per
    (contract, owned token id) pair. *)
Definition flattened_pairs (sanitized : list SanitizedRecord)
    (readResults : list ReadResult) : list OwnedItem :=
  mjoin (imap (fun i rec => item_of rec <$> tokens_read readResults i) sanitized).

Definition key_of (rec : SanitizedRecord) : jsstring :=
  toLowerCase (s_contractAddress rec).

(** Entries for one contract address, compared without case, have the
    same read outcome.  This holds in particular when the addresses are
    pairwise distinct. *)
Definition reads_agree (sanitized : list SanitizedRecord)
    (readResults : list ReadResult) : Prop :=
  forall i j ri rj,
    sanitized !! i = Some ri -> sanitized !! j = Some rj ->
    key_of ri = key_of rj ->
    tokens_read readResults i = tokens_read readResults j.

(** The Store query once it has succeeded without any deployment. *)
Definition empty_store : Store.Query :=
  {| Store.data :=
       Some {| Store.r_data := Some {| Store.allRecordDeployeds := Some (Some []) |} |};
     Store.isLoading := false;
     Store.error := None |}.

(** The My Records view once both fetches have succeeded and nothing is
    owned. *)
Definition empty_collection : RenderState :=
  {| isFetching := false; fetchError := None; isReading := false;
     readError := false; readErrObj := None; items := [] |}.

(** The state after the first [k] iterations of the loop of step 4. *)
Definition ownedTokens_after (sanitized : list SanitizedRecord)
    (readResults : list ReadResult) (console : list ConsoleEntry) (k : nat)
  : gmap jsstring (list Z) * list ConsoleEntry :=
  fold_left (ownedTokens_step sanitized readResults) (seq 0 k) (∅, console).

End CollectionSpec.

(** A stand-in for the address functions of the library, used in the
    examples: an address is [0x] followed by 40 hexadecimal digits, and the
    checksummed form of an address is taken to be the address itself. *)
Module ViemSample.

Definition is_hex (c : ascii) : bool :=
  match JsBigInt.digit_value c with
  | Some d => d <? 16
  | None => false
  end.

Definition isAddress (s : jsstring) : bool :=
  match s with
  | c0 :: c1 :: hex =>
      Ascii.eqb c0 "0" && Ascii.eqb c1 "x" && (length hex =? 40)%nat && forallb is_hex hex
  | _ => false
  end.

Definition getAddress (s : jsstring) : completion jsstring :=
  if isAddress s then Normal s else Throw (Error "InvalidAddressError").

Definition quote : ascii := ascii_of_N 34.

Definition JSON_stringify (s : jsstring) : jsstring := quote :: s ++ [quote].

Definition record_A : jsstring := "0x00000000000000000000000000000000000000AA".
Definition record_B : jsstring := "0x00000000000000000000000000000000000000bb".

Definition deployment (rec : option jsstring) (title : jsstring)
  : MyRecords.DeployedRecord :=
  {| MyRecords.record := rec; MyRecords.artist := "Artist";
     MyRecords.name := title; MyRecords.contractAddress := "0xfactory" |}.

Definition entry (addr title : jsstring) : MyRecords.SanitizedRecord :=
  {| MyRecords.s_contractAddress := addr; MyRecords.s_name := title;
     MyRecords.s_artist := "Artist" |}.

End ViemSample.

(** ** Vocabulary of the Owner page specification *)

Module OwnerSpec.
Import OwnerPage.

(** The number a song is ordered by. *)
Definition track_number (song : Song) : Z := default 0%Z (track song).

(** The track numbers of the rendered tracks, from top to bottom. *)
Definition track_numbers (view : Tracks) : list Z :=
  match view with
  | NoTracksFound => []
  | TrackList items => (fun item => default 0%Z (t_track item)) <$> items
  end.

(** The rendered [item] presents [song]. *)
Definition presents (window : Window) (item : TrackItem) (song : Song) : Prop :=
  t_track item = track song
  /\ t_title item = title song
  /\ t_artist item = artist song
  /\ audioSrc item = resolveIpfsUrl window (audio song).

Definition song (n : Z) (name : jsstring) : Song :=
  {| track := Some n; title := name; artist := "Artist"; duration := None;
     audio := "ipfs://" ++ name |}.

Definition album (songs_ : list Song) : RecordMetadata :=
  {| name := "Album"; m_artist := None; image := None; description := None;
     animation_url := None; songs := Some songs_ |}.

End OwnerSpec.

(** ** Vocabulary of the record card specification *)

Module RecordBoxSpec.
Import RecordBox.

(** The ways the resolution of the image fails. *)
Inductive resolution_fails (window : Window) (props : Props) (read : ReadContract)
    (fetch : jsstring -> FetchOutcome) : Prop :=
  | onchain_read_errors e :
      isLoading read = false -> error read = Some e ->
      resolution_fails window props read fetch
  | metadata_fetch_rejected tokenId onchainURI e :
      variant props = Owned tokenId ->
      isLoading read = false -> data read = Some onchainURI -> onchainURI <> [] ->
      fetch (resolveIpfsUrl window onchainURI) = FetchRejected e ->
      resolution_fails window props read fetch
  | metadata_fetch_not_ok tokenId onchainURI status json :
      variant props = Owned tokenId ->
      isLoading read = false -> data read = Some onchainURI -> onchainURI <> [] ->
      fetch (resolveIpfsUrl window onchainURI) = Response false status json ->
      resolution_fails window props read fetch
  | metadata_not_json tokenId onchainURI status e :
      variant props = Owned tokenId ->
      isLoading read = false -> data read = Some onchainURI -> onchainURI <> [] ->
      fetch (resolveIpfsUrl window onchainURI) = Response true status (Throw e) ->
      resolution_fails window props read fetch
  | metadata_lacks_image tokenId onchainURI status json :
      variant props = Owned tokenId ->
      isLoading read = false -> data read = Some onchainURI -> onchainURI <> [] ->
      fetch (resolveIpfsUrl window onchainURI) = Response true status (Normal json) ->
      json ≫= id = None \/ json ≫= id = Some [] ->
      resolution_fails window props read fetch.

Definition owned_card : Props :=
  {| variant := Owned (IdBigInt 1); contractAddress := ViemSample.record_A;
     name := "One"; artist := "Artist" |}.

Definition token_uri_read : ReadContract :=
  {| data := Some (lit "ipfs://token/1.json"); isLoading := false; error := None |}.

(** A gateway that answers every request with 404. *)
Definition not_found (url : jsstring) : FetchOutcome :=
  Response false 404 (Throw SyntaxError).

End RecordBoxSpec.

(** ** My Records: the cards of the grid *)

Module MyRecordsCards.
Import MyRecords.

(** Props of one owned card, with its React key. *)
Record Card : Type := {
  key : jsstring;
  c_contractAddress : jsstring;
  c_name : jsstring;
  c_artist : jsstring;
  c_tokenId : Z;
  href : jsstring;
}.

Definition card (item : OwnedItem) : Card :=
  {| key := o_contractAddress item ++ "-" ++ JsBigInt.toString (o_tokenId item);
     c_contractAddress := o_contractAddress item;
     c_name := o_name item;
     c_artist := o_artist item;
     c_tokenId := o_tokenId item;
     href := "/owned-record/" ++ o_contractAddress item ++ "/"
             ++ JsBigInt.toString (o_tokenId item) |}.

(** [ownedItems.map((item) => <RecordBox variant="owned" ... />)] *)
Definition cards (items : list OwnedItem) : list Card := card <$> items.

End MyRecordsCards.

(** ** The record card: its link *)

Module RecordBoxLinks.
Import RecordBox.

Section Links.
(** [String(n)] for a number. *)
Variable Number_toString : number -> jsstring.

(** Build default link destinations unless caller supplies [href] *)
Definition defaultHref (href : option jsstring) (props : Props) : jsstring :=
  match href with
  | Some ((_ :: _) as href) => href
  | _ =>
      match variant props with
      | Market => "/buy-record/" ++ contractAddress props
      | Owned tokenId =>
          let tokenIdStr :=
            match tokenId with
            | IdBigInt id => JsBigInt.toString id
            | IdNumber id => Number_toString id
            | IdString id => id
            end in
          "/owner/" ++ contractAddress props ++ "/" ++ tokenIdStr
      end
  end.
End Links.

End RecordBoxLinks.

(** ** The Owner page: token URI, metadata fetch and header *)

Module OwnerRecord.
Import OwnerPage.

Inductive RouteId : Type :=
  | NumberId (id : RecordBox.number)
  | StringId (id : jsstring).

Definition toBigIntId (id : RouteId) : completion Z :=
  match id with
  | NumberId (RecordBox.Integral z) => Normal z
  | NumberId RecordBox.NonIntegral => Throw RangeError
  | StringId id => JsBigInt.BigInt id
  end.

Record Params : Type := {
  contractAddress : jsstring;
  tokenId : jsstring;
}.

(** What [useReadContract] returns; the error is kept as the text the
    page shows for it. *)
Record TokenUriRead : Type := {
  tokenUri : option jsstring;
  isTokenUriLoading : bool;
  tokenUriError : option jsstring;
}.

(** The three state cells of the page. *)
Record MetaState : Type := {
  metadata : option RecordMetadata;
  isLoadingMeta : bool;
  metaError : option jsstring;
}.

Definition initialMetaState : MetaState :=
  {| metadata := None; isLoadingMeta := false; metaError := None |}.

(** How [res.json()] turns out: rejected with a value whose [message] may
    be missing, or a body, [None] for a JSON null. *)
Inductive JsonOutcome : Type :=
  | JsonRejected (message : option jsstring)
  | JsonBody (body : option RecordMetadata).

Inductive FetchOutcome : Type :=
  | FetchRejected (message : option jsstring)
  | Response (ok : bool) (status : Z) (json : JsonOutcome).

(** The [try] block of the effect: the body, or the [message] of what was
    thrown. *)
Definition fetchMetadata (window : Window) (tokenUri : jsstring)
    (fetch : jsstring -> FetchOutcome) : option RecordMetadata + option jsstring :=
  let url := resolveIpfsUrl window tokenUri in
  match fetch url with
  | FetchRejected message => inr message
  | Response ok status json =>
      if negb ok
      then inr (Some ("Failed to fetch metadata: " ++ JsBigInt.toString status))
      else match json with
           | JsonRejected message => inr message
           | JsonBody body => inl body
           end
  end.

(** [e?.message || "Failed to load metadata"] *)
Definition messageOf (message : option jsstring) : jsstring :=
  match message with
  | Some ((_ :: _) as message) => message
  | _ => "Failed to load metadata"
  end.

(** One run of the effect that is not cancelled, from its first state
    update to its last. *)
Definition runEffect (window : Window) (read : TokenUriRead)
    (fetch : jsstring -> FetchOutcome) (st : MetaState) : MetaState :=
  match tokenUri read with
  | None | Some [] => st
  | Some uri =>
      if isTokenUriLoading read then st
      else
        match fetchMetadata window uri fetch with
        | inl json =>
            {| metadata := json; isLoadingMeta := false; metaError := None |}
        | inr message =>
            {| metadata := metadata st; isLoadingMeta := false;
               metaError := Some (messageOf message) |}
        end
  end.

Inductive Title : Type :=
  | LoadingTitle                       (* "Loading…" *)
  | TitleText (name : jsstring).

Inductive Cover : Type :=
  | LoadingCover
  | CoverImage (src : jsstring) (alt : Title)
  | PlaceholderCover.                   (* /placeholder.png *)

Record View : Type := {
  publicLink : jsstring;
  cover : Cover;
  pageTitle : Title;
  pageArtist : jsstring;
  shownDescription : option jsstring;
  openPlayer : option jsstring;
  errorText : option jsstring;
  tracks : Tracks;
}.

(** A string that is neither missing nor empty. *)
Definition truthy (s : option jsstring) : option jsstring :=
  match s with
  | Some ((_ :: _) as s) => Some s
  | _ => None
  end.

Definition OwnerRecordPage (window : Window) (params : Params)
    (read : TokenUriRead) (st : MetaState) : completion View :=
  _ ← toBigIntId (StringId (tokenId params));     (* args: [toBigIntId(tokenIdParam)] *)
  let coverImage := resolveIpfsUrl window <$> truthy (metadata st ≫= image) in
  let animationUrl := resolveIpfsUrl window <$> truthy (metadata st ≫= animation_url) in
  let pageTitle :=
    match metadata st with
    | Some m => TitleText (name m)
    | None => LoadingTitle
    end in
  let pageArtist := default (lit "Unknown Artist") (metadata st ≫= m_artist) in
  Normal
    {| publicLink := "/record/" ++ contractAddress params ++ "/" ++ tokenId params;
       cover :=
         if isTokenUriLoading read || isLoadingMeta st then LoadingCover
         else match coverImage with
              | Some src => CoverImage src pageTitle
              | None => PlaceholderCover
              end;
       pageTitle := pageTitle;
       pageArtist := pageArtist;
       shownDescription := truthy (metadata st ≫= description);
       openPlayer := animationUrl;
       errorText :=
         match tokenUriError read with
         | Some text => Some text
         | None => truthy (metaError st)
         end;
       tracks := OwnerRecordPage_tracks window (metadata st) |}.

End OwnerRecord.

(** ** Sample states of the Owner page *)

Module OwnerSamples.

(** The metadata object after a render: [metadata.songs.sort(...)] sorts
    the array held by the state in place. *)
Definition after_render (metadata : OwnerPage.RecordMetadata) : OwnerPage.RecordMetadata :=
  {| OwnerPage.name := OwnerPage.name metadata;
     OwnerPage.m_artist := OwnerPage.m_artist metadata;
     OwnerPage.image := OwnerPage.image metadata;
     OwnerPage.description := OwnerPage.description metadata;
     OwnerPage.animation_url := OwnerPage.animation_url metadata;
     OwnerPage.songs := JsArray.sort OwnerPage.compareTracks <$> OwnerPage.songs metadata |}.

Definition token_route : OwnerRecord.Params :=
  {| OwnerRecord.contractAddress := ViemSample.record_A; OwnerRecord.tokenId := "1" |}.

Definition token_uri_read : OwnerRecord.TokenUriRead :=
  {| OwnerRecord.tokenUri := Some (lit "ipfs://token/1.json");
     OwnerRecord.isTokenUriLoading := false;
     OwnerRecord.tokenUriError := None |}.

Definition empty_uri_read : OwnerRecord.TokenUriRead :=
  {| OwnerRecord.tokenUri := Some [];
     OwnerRecord.isTokenUriLoading := false;
     OwnerRecord.tokenUriError := None |}.

(** A gateway that answers every request with 502. *)
Definition gateway_down (url : jsstring) : OwnerRecord.FetchOutcome :=
  OwnerRecord.Response false 502 (OwnerRecord.JsonRejected None).

(** The page after an album has been loaded. *)
Definition album_loaded : OwnerRecord.MetaState :=
  {| OwnerRecord.metadata :=
       Some (OwnerSpec.album [OwnerSpec.song 2 "b"; OwnerSpec.song 1 "a"]);
     OwnerRecord.isLoadingMeta := false;
     OwnerRecord.metaError := None |}.

End OwnerSamples.

(** ** Sample states of the record card *)

Module RecordBoxSamples.

(** A gateway that serves a token metadata document with an image. *)
Definition metadata_served (url : jsstring) : RecordBox.FetchOutcome :=
  RecordBox.Response true 200 (Normal (Some (Some (lit "ipfs://img/1.png")))).

End RecordBoxSamples.

(** * Properties *)

Local Ltac Zify.zify_post_hook ::= Z.to_euclidean_division_equations.

(** ** Decimal digits *)

Section Digits.
Import JsString JsBigInt PriceSpec.

Lemma code_digit_char d : d < 10 -> code (digit_char d) = 48 + d.
Proof.
  intros Hd. unfold code, digit_char. apply N_ascii_embedding. lia.
Qed.

Lemma is_digit_digit_char d : d < 10 -> is_digit (digit_char d) = true.
Proof.
  intros Hd. unfold is_digit. rewrite code_digit_char by done.
  apply andb_true_intro; split; apply N.leb_le; lia.
Qed.

Lemma code_inj c1 c2 : code c1 = code c2 -> c1 = c2.
Proof.
  unfold code. intros H.
  rewrite <- (ascii_N_embedding c1), <- (ascii_N_embedding c2). by rewrite H.
Qed.

Lemma is_digit_bounds c : is_digit c = true -> 48 <= code c <= 57.
Proof.
  unfold is_digit. intros [H1 H2]%andb_prop.
  apply N.leb_le in H1, H2. lia.
Qed.

Lemma decimal_value_snoc s c :
  decimal_value (s ++ [c]) = decimal_value s * 10 + (code c - 48).
Proof. unfold decimal_value. by rewrite fold_left_app. Qed.

Lemma fold_decimal_acc s acc :
  fold_left (fun acc c => acc * 10 + (code c - 48)) s acc
  = acc * 10 ^ N.of_nat (length s) + decimal_value s.
Proof.
  unfold decimal_value. revert acc.
  induction s as [|c t IH]; intros acc; cbn [fold_left length].
  - cbn. lia.
  - rewrite IH, (IH (0 * 10 + _)), Nat2N.inj_succ, N.pow_succ_r'. lia.
Qed.

Lemma decimal_value_app a b :
  decimal_value (a ++ b)
  = decimal_value a * 10 ^ N.of_nat (length b) + decimal_value b.
Proof.
  unfold decimal_value at 1. rewrite fold_left_app.
  fold (decimal_value a). apply fold_decimal_acc.
Qed.

Lemma decimal_value_zeros k : decimal_value (replicate k "0"%char) = 0.
Proof.
  induction k as [|k IH]; [done|].
  change (replicate (S k) "0"%char) with (["0"%char] ++ replicate k "0"%char).
  rewrite decimal_value_app, IH. cbn. lia.
Qed.

(** Enough fuel gives the same digits. *)
Lemma N_digits_fuel f1 f2 n :
  n < 2 ^ N.of_nat (S f1) -> n < 2 ^ N.of_nat (S f2) ->
  N_digits (S f1) n = N_digits (S f2) n.
Proof.
  revert f2 n. induction f1 as [|f1 IH]; intros f2 n H1 H2.
  - cbn in H1. cbn [N_digits].
    destruct (N.ltb_spec n 10); [done | lia].
  - cbn [N_digits]. destruct (N.ltb_spec n 10) as [|Hge]; [done|].
    f_equal. rewrite Nat2N.inj_succ, N.pow_succ_r' in H1, H2.
    destruct f2 as [|f2].
    { cbn in H2. lia. }
    apply IH; lia.
Qed.

Lemma N_toString_small n : n < 10 -> N_toString n = [digit_char n].
Proof.
  intros Hn. unfold N_toString. cbn [N_digits].
  by destruct (N.ltb_spec n 10); [|lia].
Qed.

Lemma lt_pow2_log2 n : n < 2 ^ N.of_nat (S (N.to_nat (N.log2 n))).
Proof.
  rewrite Nat2N.inj_succ, N2Nat.id.
  destruct (decide (n = 0)) as [->|Hn]; [done|].
  apply N.log2_spec. lia.
Qed.

Lemma N_toString_step n :
  10 <= n -> N_toString n = N_toString (n / 10) ++ [digit_char (n mod 10)].
Proof.
  intros Hn. unfold N_toString at 1. cbn [N_digits].
  destruct (N.ltb_spec n 10); [lia|]. f_equal.
  pose proof (lt_pow2_log2 n) as Hlt.
  destruct (N.to_nat (N.log2 n)) as [|k] eqn:Hk.
  { cbn in Hlt. lia. }
  apply N_digits_fuel; [|apply lt_pow2_log2].
  rewrite Nat2N.inj_succ, N.pow_succ_r' in Hlt. lia.
Qed.

(** Induction along the digits of a number. *)
Lemma digits_ind (P : N -> Prop) :
  (forall n, n < 10 -> P n) ->
  (forall n, 10 <= n -> P (n / 10) -> P n) ->
  forall n, P n.
Proof.
  intros Hsmall Hstep n.
  induction (N.lt_wf_0 n) as [n _ IH].
  destruct (N.lt_ge_cases n 10) as [|Hge]; [by apply Hsmall|].
  apply Hstep; [done|]. apply IH. lia.
Qed.

Lemma N_toString_digits n : forallb is_digit (N_toString n) = true.
Proof.
  induction n as [n Hn | n Hn IH] using digits_ind.
  - rewrite N_toString_small by done. cbn. by rewrite is_digit_digit_char.
  - rewrite N_toString_step, forallb_app, IH by done. cbn.
    rewrite is_digit_digit_char; [done | lia].
Qed.

Lemma N_toString_nonempty n : N_toString n <> [].
Proof.
  destruct (N.lt_ge_cases n 10).
  - by rewrite N_toString_small.
  - rewrite N_toString_step by done. by intros [_ ?]%app_eq_nil.
Qed.

Lemma N_toString_value n : decimal_value (N_toString n) = n.
Proof.
  induction n as [n Hn | n Hn IH] using digits_ind.
  - rewrite N_toString_small by done. unfold decimal_value. cbn.
    rewrite code_digit_char by done. lia.
  - rewrite N_toString_step, decimal_value_snoc, IH by done.
    rewrite code_digit_char by lia. lia.
Qed.

Lemma N_toString_head n : N_toString n = "0" \/ head (N_toString n) <> Some "0"%char.
Proof.
  induction n as [n Hn | n Hn IH] using digits_ind.
  - rewrite N_toString_small by done.
    destruct (decide (n = 0)) as [->|Hne]; [by left|right].
    cbn. intros [= Heq]. apply (f_equal code) in Heq.
    rewrite code_digit_char in Heq by done. cbn in Heq. lia.
  - rewrite N_toString_step by done. right.
    destruct IH as [IH|IH].
    + apply (f_equal decimal_value) in IH. rewrite N_toString_value in IH.
      cbn in IH. lia.
    + pose proof (N_toString_nonempty (n / 10)).
      by destruct (N_toString (n / 10)).
Qed.

Lemma N_toString_numeral n : numeral_of (N_toString n) n.
Proof.
  split_and!.
  - unfold is_decimal. pose proof (N_toString_nonempty n).
    pose proof (N_toString_digits n). by destruct (N_toString n).
  - apply N_toString_value.
  - apply N_toString_head.
Qed.

Lemma N_toString_length n k :
  n < 10 ^ N.of_nat (S k) -> (length (N_toString n) <= S k)%nat.
Proof.
  revert k. induction n as [n Hn | n Hn IH] using digits_ind; intros k Hk.
  - rewrite N_toString_small by done. cbn. lia.
  - rewrite N_toString_step, length_app by done. cbn [length].
    rewrite Nat2N.inj_succ, N.pow_succ_r' in Hk.
    destruct k as [|k]; [cbn in Hk; lia|].
    specialize (IH k). rewrite Nat2N.inj_succ, N.pow_succ_r' in IH.
    rewrite Nat2N.inj_succ, N.pow_succ_r' in Hk. lia.
Qed.

Lemma toString_of_N n : toString (Z.of_N n) = N_toString n.
Proof. by destruct n. Qed.

End Digits.

(** ** Parsing a digit string *)

Section Parsing.
Import JsString JsBigInt PriceSpec.

Lemma is_digit_not_white_space c : is_digit c = true -> is_white_space c = false.
Proof.
  intros Hc%is_digit_bounds. unfold is_white_space.
  repeat (apply orb_false_intro); apply N.eqb_neq; lia.
Qed.

Lemma is_digit_eqb c (k : ascii) :
  is_digit c = true -> is_digit k = false -> Ascii.eqb c k = false.
Proof.
  intros Hc Hk. apply Ascii.eqb_neq. intros ->. congruence.
Qed.

Lemma trimEnd_digits s : forallb is_digit s = true -> trimEnd s = s.
Proof.
  induction s as [|c t IH]; [done|]. cbn [forallb trimEnd].
  intros [Hc Ht]%andb_prop. rewrite IH by done.
  destruct t; [|done]. by rewrite is_digit_not_white_space.
Qed.

Lemma trim_decimal s : is_decimal s = true -> trim s = s.
Proof.
  destruct s as [|c t]; [done|]. cbn [is_decimal]. intros Hs.
  unfold trim. cbn [trimStart].
  pose proof Hs as [Hc _]%andb_prop.
  rewrite is_digit_not_white_space by done. by apply trimEnd_digits.
Qed.

Lemma digit_value_digit c : is_digit c = true -> digit_value c = Some (code c - 48).
Proof.
  intros Hc. unfold digit_value. unfold is_digit in Hc. by rewrite Hc.
Qed.

Lemma digits_value_decimal s acc :
  forallb is_digit s = true ->
  digits_value 10 s acc
  = Some (fold_left (fun acc c => acc * 10 + (code c - 48)) s acc).
Proof.
  revert acc. induction s as [|c t IH]; intros acc; [done|].
  cbn [forallb digits_value fold_left]. intros [Hc Ht]%andb_prop.
  rewrite digit_value_digit by done.
  apply is_digit_bounds in Hc.
  destruct (N.ltb_spec (code c - 48) 10); [by apply IH | lia].
Qed.

Lemma parse_digits_decimal s :
  is_decimal s = true -> parse_digits 10 s = Some (decimal_value s).
Proof.
  destruct s as [|c t]; [done|]. intros Hs.
  unfold parse_digits. by apply digits_value_decimal.
Qed.

(** A digit string parses to the integer it denotes. *)
Lemma StringToBigInt_decimal s :
  is_decimal s = true -> StringToBigInt s = Some (Z.of_N (decimal_value s)).
Proof.
  intros Hs. unfold StringToBigInt. rewrite trim_decimal by done.
  destruct s as [|c0 rest]; [done|].
  assert (is_digit c0 = true) as Hc0.
  { cbn in Hs. by apply andb_prop in Hs as []. }
  assert (match rest with
          | c1 :: _ => is_digit c1 = true
          | [] => True
          end) as Hc1.
  { pose proof Hs as Hs'. cbn in Hs'. apply andb_prop in Hs' as [_ Hs'].
    destruct rest; [done|]. cbn in Hs'. by apply andb_prop in Hs' as []. }
  assert (forall lower upper : ascii,
            is_digit lower = false -> is_digit upper = false ->
            Ascii.eqb c0 "0" &&
            match rest with
            | c1 :: _ => Ascii.eqb c1 lower || Ascii.eqb c1 upper
            | [] => false
            end = false) as Hprefixed.
  { intros lower upper Hl Hu. destruct rest as [|c1 ?]; [apply andb_false_r|].
    rewrite (is_digit_eqb c1 lower), (is_digit_eqb c1 upper) by done.
    apply andb_false_r. }
  cbv zeta. rewrite !Hprefixed by done.
  rewrite !(is_digit_eqb c0) by done.
  by rewrite parse_digits_decimal.
Qed.

End Parsing.

(** ** Padding and trimming the fraction *)

Section Fraction.
Import JsString JsBigInt PriceSpec.

Lemma repeat_truncated_zeros k :
  repeat_truncated "0" k = replicate k "0"%char.
Proof.
  unfold repeat_truncated.
  assert (mjoin (replicate k (lit "0")) = replicate k "0"%char) as Hjoin.
  { induction k as [|k IH]; [done|].
    change (mjoin (replicate (S k) (lit "0")))
      with ("0"%char :: mjoin (replicate k (lit "0"))).
    by rewrite IH. }
  rewrite Hjoin, take_ge; [done|]. by rewrite length_replicate.
Qed.

Lemma padStart_zeros n s :
  (length s <= n)%nat ->
  padStart n "0" s = replicate (n - length s) "0"%char ++ s.
Proof.
  intros Hn. unfold padStart. case_decide as Hle.
  - by replace (n - length s)%nat with 0%nat by lia.
  - change (lit "0") with ["0"%char]. cbv iota.
    change ["0"%char] with (lit "0"). by rewrite repeat_truncated_zeros.
Qed.

(** What is removed is a run of zeros, and no zero is left at the end. *)
Lemma replace_trailing_zeros_spec s :
  let t := replace_trailing_zeros s in
  s = t ++ replicate (length s - length t) "0"%char /\ last t <> Some "0"%char.
Proof.
  induction s as [|c s [IH1 IH2]]; [done|]. cbn zeta in *.
  cbn [replace_trailing_zeros].
  destruct (replace_trailing_zeros s) as [|c' t'] eqn:Et.
  - destruct (Ascii.eqb_spec c "0"%char) as [->|Hne].
    + cbn [app length] in *. rewrite !Nat.sub_0_r in *.
      cbn [replicate]. split; [by f_equal | done].
    + cbn [app length] in *. rewrite Nat.sub_0_r in IH1.
      replace (S (length s) - 1)%nat with (length s) by lia.
      split; [by f_equal | cbn; congruence].
  - split.
    + cbn [app length] in *. by f_equal.
    + by rewrite last_cons_cons.
Qed.

Lemma replace_trailing_zeros_digits s :
  forallb is_digit s = true -> forallb is_digit (replace_trailing_zeros s) = true.
Proof.
  intros Hs. pose proof (replace_trailing_zeros_spec s) as [Heq _].
  cbn zeta in Heq. rewrite Heq, forallb_app in Hs. by apply andb_prop in Hs as [].
Qed.

Lemma replace_trailing_zeros_length s :
  (length (replace_trailing_zeros s) <= length s)%nat.
Proof.
  pose proof (replace_trailing_zeros_spec s) as [Heq _]. cbn zeta in Heq.
  apply (f_equal length) in Heq. rewrite length_app in Heq. lia.
Qed.

(** The fraction the formatter shows, for a remainder below 10^18. *)
Lemma fraction_trimmed r :
  r < 10 ^ 18 ->
  trimmed_fraction_of
    (replace_trailing_zeros (padStart 18 "0" (N_toString r))) r.
Proof.
  intros Hr.
  pose proof (N_toString_length r 17 Hr) as Hlen.
  rewrite padStart_zeros by done.
  set (padded := replicate _ _ ++ _).
  assert (length padded = 18%nat) as Hpadded.
  { unfold padded. rewrite length_app, length_replicate. lia. }
  assert (forallb is_digit padded = true) as Hdigits.
  { unfold padded. rewrite forallb_app, N_toString_digits, andb_true_r.
    apply forallb_forall. intros c Hc%list_elem_of_In%elem_of_replicate.
    by destruct Hc as [-> _]. }
  assert (decimal_value padded = r) as Hvalue.
  { unfold padded.
    by rewrite decimal_value_app, decimal_value_zeros, N_toString_value. }
  pose proof (replace_trailing_zeros_spec padded) as [Heq Hlast].
  pose proof (replace_trailing_zeros_length padded).
  cbn zeta in *. rewrite Hpadded in Heq.
  split_and!.
  - by apply replace_trailing_zeros_digits.
  - lia.
  - done.
  - by rewrite <- Heq.
Qed.

Lemma trimmed_fraction_nil f r : trimmed_fraction_of f r -> f = [] <-> r = 0.
Proof.
  intros (Hdigits & Hlen & Hlast & Hvalue). split.
  - intros ->. rewrite <- Hvalue. apply decimal_value_zeros.
  - intros ->. destruct (decide (f = [])) as [|Hne]; [done|]. exfalso.
    rewrite decimal_value_app, decimal_value_zeros in Hvalue.
    destruct (exists_last Hne) as (f' & c & ->).
    rewrite last_snoc in Hlast.
    rewrite forallb_app in Hdigits. apply andb_prop in Hdigits as [_ Hc].
    cbn in Hc. rewrite andb_true_r in Hc. apply is_digit_bounds in Hc.
    rewrite decimal_value_snoc in Hvalue.
    assert (code c = 48) as Hcode by nia.
    apply Hlast. f_equal. by apply code_inj.
Qed.

End Fraction.

(** ** formatETHPrice *)

Section FormatPrice.
Import JsString JsBigInt PriceSpec.

(** The formatter on any input that parses to a non-negative integer. *)
Lemma formatETHPrice_of_N s n :
  StringToBigInt s = Some (Z.of_N n) ->
  formatETHPrice s
  = Normal (N_toString (n / 10 ^ 18) ++ "."
            ++ shown_fraction
                 (replace_trailing_zeros
                    (padStart 18 "0" (N_toString (n mod 10 ^ 18))))
            ++ " ETH").
Proof.
  intros Hparse. unfold formatETHPrice, formatETHPrice_body, BigInt.
  rewrite Hparse. cbn [mbind completion_bind cbind].
  unfold div, rem. change WEI_PER_ETH with (Z.of_N (10 ^ 18)).
  rewrite !decide_False by done.
  cbn [mbind completion_bind cbind].
  rewrite <- N2Z.inj_quot, <- N2Z.inj_rem, !toString_of_N.
  by destruct (replace_trailing_zeros _).
Qed.

(** The formatter never throws: the handler returns the input. *)
Lemma formatETHPrice_total s : exists r, formatETHPrice s = Normal r.
Proof.
  unfold formatETHPrice. destruct (formatETHPrice_body s); cbn; eauto.
Qed.

Lemma formatETHPrice_unparsed s :
  StringToBigInt s = None -> formatETHPrice s = Normal s.
Proof.
  intros Hparse. unfold formatETHPrice, formatETHPrice_body, BigInt.
  by rewrite Hparse.
Qed.

End FormatPrice.

(** C1. For a string [s] of decimal digits, denoting the integer [n],
    [formatETHPrice s] is ["{whole}.{fraction} ETH"] where [whole] is the
    decimal numeral of the quotient [n / 10^18] and [fraction] is the
    18-digit zero-padded remainder [n mod 10^18] without its trailing
    zeros, or ["0000"] when nothing is left of it, which happens exactly
    when the remainder is zero.  In particular one ether in wei is
    formatted as ["1.0000 ETH"]. *)
Theorem formatETHPrice_decimal (s : jsstring) :
  PriceSpec.is_decimal s = true ->
  (exists whole trimmed : jsstring,
     PriceSpec.numeral_of whole (PriceSpec.decimal_value s / 10 ^ 18)
     /\ PriceSpec.trimmed_fraction_of trimmed (PriceSpec.decimal_value s mod 10 ^ 18)
     /\ (trimmed = [] <-> PriceSpec.decimal_value s mod 10 ^ 18 = 0)
     /\ formatETHPrice s
        = Normal (whole ++ "." ++ PriceSpec.shown_fraction trimmed ++ " ETH"))
  /\ formatETHPrice "1000000000000000000" = Normal (lit "1.0000 ETH").
Proof.
  intros Hs. split; [|by vm_compute].
  pose proof (StringToBigInt_decimal s Hs) as Hparse.
  pose proof (fraction_trimmed (PriceSpec.decimal_value s mod 10 ^ 18)) as Hfrac.
  eexists _, _. split_and!.
  - apply N_toString_numeral.
  - apply Hfrac. by apply N.mod_lt.
  - apply trimmed_fraction_nil, Hfrac. by apply N.mod_lt.
  - by apply formatETHPrice_of_N.
Qed.

Lemma formatETHPrice_decimal_witness :
  PriceSpec.is_decimal "1500000000000000000" = true
  /\ ((exists whole trimmed : jsstring,
         PriceSpec.numeral_of whole
           (PriceSpec.decimal_value "1500000000000000000" / 10 ^ 18)
         /\ PriceSpec.trimmed_fraction_of trimmed
              (PriceSpec.decimal_value "1500000000000000000" mod 10 ^ 18)
         /\ (trimmed = []
             <-> PriceSpec.decimal_value "1500000000000000000" mod 10 ^ 18 = 0)
         /\ formatETHPrice "1500000000000000000"
            = Normal (whole ++ "." ++ PriceSpec.shown_fraction trimmed ++ " ETH"))
      /\ formatETHPrice "1000000000000000000" = Normal (lit "1.0000 ETH")).
Proof.
  split; [reflexivity|].
  apply (formatETHPrice_decimal "1500000000000000000"). reflexivity.
Defined.

(** C2. When [BigInt] cannot parse the input, [formatETHPrice] returns the
    input itself, and on every input it returns normally. *)
Theorem formatETHPrice_unparsable (s : jsstring) :
  (JsBigInt.StringToBigInt s = None -> formatETHPrice s = Normal s)
  /\ exists r : jsstring, formatETHPrice s = Normal r.
Proof.
  split; [apply formatETHPrice_unparsed | apply formatETHPrice_total].
Qed.

Lemma formatETHPrice_unparsable_witness :
  JsBigInt.StringToBigInt "12 ETH" = None
  /\ formatETHPrice "12 ETH" = Normal (lit "12 ETH").
Proof.
  split; [reflexivity|].
  apply (formatETHPrice_unparsable "12 ETH"). reflexivity.
Defined.

(** ** String search and replacement *)

Section Replace.
Import JsString UrlSpec.

Lemma indexOf_sound pattern s i :
  indexOf pattern s = Some i -> occurs_at pattern s i.
Proof.
  revert i. induction s as [|c t IH]; intros i; cbn [indexOf];
    case_bool_decide as Hprefix.
  - intros [= <-]. destruct Hprefix as [after ->]. by exists [], after.
  - done.
  - intros [= <-]. destruct Hprefix as [after ->]. by exists [], after.
  - destruct (indexOf pattern t) as [i'|]; [|done]. intros [= <-].
    destruct (IH i' eq_refl) as (before & after & -> & <-).
    by exists (c :: before), after.
Qed.

Lemma indexOf_complete pattern s j :
  occurs_at pattern s j -> exists i, indexOf pattern s = Some i /\ (i <= j)%nat.
Proof.
  revert j. induction s as [|c t IH]; intros j (before & after & Hs & <-);
    cbn [indexOf]; case_bool_decide as Hprefix.
  - exists 0%nat. split; [done | lia].
  - destruct before; [|done]. destruct Hprefix. by exists after.
  - exists 0%nat. split; [done | lia].
  - destruct before as [|c' before].
    { destruct Hprefix. by exists after. }
    injection Hs as <- ->.
    destruct (IH (length before)) as (i & -> & Hle); [by eexists _, _|].
    exists (S i). split; [done | cbn; lia].
Qed.

Lemma indexOf_least pattern s i j :
  indexOf pattern s = Some i -> occurs_at pattern s j -> (i <= j)%nat.
Proof.
  intros Hi (i' & Hi' & Hle)%indexOf_complete. congruence.
Qed.

Lemma indexOf_None pattern s : indexOf pattern s = None <-> ~ contains pattern s.
Proof.
  split.
  - intros Hnone [j (i & Hi & _)%indexOf_complete]. congruence.
  - intros Hnot. destruct (indexOf pattern s) as [i|] eqn:Hi; [|done].
    destruct Hnot. exists i. by apply indexOf_sound.
Qed.

Lemma indexOf_first pattern s k :
  occurs_at pattern s k ->
  (forall j, occurs_at pattern s j -> (k <= j)%nat) ->
  indexOf pattern s = Some k.
Proof.
  intros Hk Hleast. destruct (indexOf_complete _ _ _ Hk) as (i & Hi & Hle).
  rewrite Hi. f_equal. apply indexOf_sound, Hleast in Hi. lia.
Qed.

(** Removing a pattern that does not occur changes nothing. *)
Lemma replace_absent pattern replacement s :
  ~ contains pattern s -> replace pattern replacement s = s.
Proof. intros Hs%indexOf_None. unfold replace. by rewrite Hs. Qed.

(** The occurrence with the least index is the one replaced. *)
Lemma replace_first pattern replacement before after :
  (forall j, occurs_at pattern (before ++ pattern ++ after) j ->
             (length before <= j)%nat) ->
  replace pattern replacement (before ++ pattern ++ after)
  = before ++ replacement ++ after.
Proof.
  intros Hleast. unfold replace.
  rewrite (indexOf_first pattern _ (length before)); [|by eexists _, _|done].
  rewrite take_app_length. f_equal. f_equal.
  rewrite drop_app_ge by lia.
  replace (length before + length pattern - length before)%nat
    with (length pattern) by lia.
  by rewrite drop_app_length.
Qed.

Lemma replace_prefix pattern replacement after :
  replace pattern replacement (pattern ++ after) = replacement ++ after.
Proof.
  apply (replace_first pattern replacement []). cbn. lia.
Qed.

End Replace.

(** ** resolveIpfsUrl *)

Lemma resolveIpfsUrl_gateway window s :
  resolveIpfsUrl window s
  = UrlSpec.selected_gateway window ++ JsString.replace IPFS_SCHEME "" s.
Proof.
  unfold resolveIpfsUrl, UrlSpec.selected_gateway. by case_decide.
Qed.

(** C3. For every [X], the resolved form of ["ipfs://" ++ X] ends with
    [X]; it is the local gateway URL [http://127.0.0.1:8080/ipfs/X]
    exactly when the page's hostname is ["localhost"], and the public
    gateway URL [https://ipfs.io/ipfs/X] exactly when it is not.  The
    resolver is a total function: it has no failure path. *)
Theorem resolveIpfsUrl_ipfs (window : Window) (X : jsstring) :
  let url := resolveIpfsUrl window ("ipfs://" ++ X) in
  X `suffix_of` url
  /\ (url = "http://127.0.0.1:8080/ipfs/" ++ X
      <-> location_hostname window = "localhost")
  /\ (url = "https://ipfs.io/ipfs/" ++ X
      <-> location_hostname window <> "localhost").
Proof.
  cbn zeta. unfold resolveIpfsUrl.
  change (lit "ipfs://") with IPFS_SCHEME.
  rewrite replace_prefix. change (lit "" ++ X) with X.
  case_decide as Hhost; (split_and!; [by eexists | split; intros H; done ..]).
Qed.

(** C10. A string without the marker ["ipfs://"] is not passed through:
    the result is the selected gateway prefix followed by the whole
    string.  When the marker occurs, its first occurrence, wherever it
    is, is the only part removed. *)
Theorem resolveIpfsUrl_any (window : Window) (s : jsstring) :
  (~ UrlSpec.contains "ipfs://" s ->
   resolveIpfsUrl window s = UrlSpec.selected_gateway window ++ s)
  /\ (UrlSpec.contains "ipfs://" s ->
      exists before after : jsstring,
        s = before ++ "ipfs://" ++ after
        /\ (forall j, UrlSpec.occurs_at "ipfs://" s j -> (length before <= j)%nat)
        /\ resolveIpfsUrl window s
           = UrlSpec.selected_gateway window ++ before ++ after).
Proof.
  rewrite !resolveIpfsUrl_gateway. split.
  - intros Hs. f_equal. by apply replace_absent.
  - intros [j Hj].
    destruct (indexOf_complete IPFS_SCHEME s j Hj) as (i & Hi & _).
    destruct (indexOf_sound _ _ _ Hi) as (before & after & -> & <-).
    exists before, after. split; [done|].
    assert (forall j, UrlSpec.occurs_at IPFS_SCHEME (before ++ IPFS_SCHEME ++ after) j ->
                      (length before <= j)%nat) as Hleast
      by (intros j'; by apply indexOf_least).
    split; [exact Hleast|].
    f_equal. exact (replace_first IPFS_SCHEME "" before after Hleast).
Qed.

Lemma resolveIpfsUrl_any_witness :
  ~ UrlSpec.contains "ipfs://" "https://cdn.example/cover.png"
  /\ resolveIpfsUrl UrlSpec.shop_window "https://cdn.example/cover.png"
     = lit "https://ipfs.io/ipfs/https://cdn.example/cover.png"
  /\ UrlSpec.contains "ipfs://" "a/ipfs://b/ipfs://c"
  /\ exists before after : jsstring,
       lit "a/ipfs://b/ipfs://c" = before ++ "ipfs://" ++ after
       /\ (forall j, UrlSpec.occurs_at "ipfs://" "a/ipfs://b/ipfs://c" j ->
                     (length before <= j)%nat)
       /\ resolveIpfsUrl UrlSpec.shop_window "a/ipfs://b/ipfs://c"
          = UrlSpec.selected_gateway UrlSpec.shop_window ++ before ++ after.
Proof.
  assert (~ UrlSpec.contains "ipfs://" "https://cdn.example/cover.png") as Habsent
    by (by apply indexOf_None).
  assert (UrlSpec.contains "ipfs://" "a/ipfs://b/ipfs://c") as Hpresent
    by (exists 2%nat; by exists (lit "a/"), (lit "b/ipfs://c")).
  split_and!; [done | | done |].
  - exact (proj1 (resolveIpfsUrl_any UrlSpec.shop_window _) Habsent).
  - exact (proj2 (resolveIpfsUrl_any UrlSpec.shop_window _) Hpresent).
Defined.

Example resolveIpfsUrl_second_marker_kept :
  resolveIpfsUrl UrlSpec.shop_window "a/ipfs://b/ipfs://c"
  = lit "https://ipfs.io/ipfs/a/b/ipfs://c".
Proof. reflexivity. Qed.

(** ** The Buy page *)

Section BuyPageProperties.
Import BuyPage BuySpec.

Lemma BuyRecordPage_listing_iff st :
  is_Some (stats_of (BuyRecordPage st)) <-> guards_pass st = true.
Proof.
  unfold BuyRecordPage, guards_pass, useContractData.
  destruct st as [w ie ic mp [[[a|] [n|] [s|]]|] el [[[[[p su] tc] [|c u]]|] l e m]];
    destruct el, l, e; cbn;
    try (split; [by intros [? [= ]] | done]).
  destruct (tc >=? su)%Z; cbn; [done|].
  destruct ic; cbn; [|done].
  destruct (formatETHPrice_total (JsBigInt.toString p)) as [r ->]. by cbn.
Qed.

Lemma BuyRecordPage_stats st p s n uri :
  rc_data (readContracts st) = Some (p, s, n, uri) ->
  guards_pass st = true ->
  exists stats,
    stats_of (BuyRecordPage st) = Some stats
    /\ (stats = AllRecordsMinted <-> (n >= s)%Z).
Proof.
  unfold BuyRecordPage, guards_pass, useContractData.
  destruct st as [w ie ic mp [[[a|] [nm|] [sy|]]|] el [d l e m]];
    destruct el, l, e; cbn; try done.
  intros ->. destruct uri as [|c u]; [done|]. intros _. cbn.
  destruct (Z.geb_spec n s) as [Hge|Hlt]; cbn.
  - eexists. split; [done|]. split; [lia | done].
  - destruct ic; cbn.
    + destruct (formatETHPrice_total (JsBigInt.toString p)) as [r ->]. cbn.
      eexists. split; [done|]. split; [done | lia].
    + eexists. split; [done|]. split; [done | lia].
Qed.

End BuyPageProperties.

(** C4, as stated, fails: with token count and supply fetched and equal,
    a record the indexer does not list renders the "no listing" message,
    not "All Records Minted". *)
Lemma BuyRecordPage_sold_out_unlisted :
  BuyPage.tokenCount
    (BuyPage.useContractData (BuyPage.window BuySpec.sold_out_unlisted)
       (BuyPage.readContracts BuySpec.sold_out_unlisted)) = Some 5%Z
  /\ BuyPage.supply
       (BuyPage.useContractData (BuyPage.window BuySpec.sold_out_unlisted)
          (BuyPage.readContracts BuySpec.sold_out_unlisted)) = Some 5%Z
  /\ BuyPage.BuyRecordPage BuySpec.sold_out_unlisted = Normal BuyPage.NoListingData
  /\ BuySpec.stats_of (BuyPage.BuyRecordPage BuySpec.sold_out_unlisted)
     <> Some BuyPage.AllRecordsMinted.
Proof. by split_and!. Qed.

(** C4, amended.  Once the guard clauses of the page pass, a token count
    greater than or equal to the supply renders "All Records Minted"
    whether or not a wallet is connected; and whenever the page renders
    "Please Connect A Wallet" or the mint control, the token count is
    below the supply. *)
Theorem BuyRecordPage_sold_out (st : BuyPage.PageState) (p s n : Z)
    (uri : jsstring) (connected : bool) :
  BuyPage.rc_data (BuyPage.readContracts st) = Some (p, s, n, uri) ->
  (BuySpec.guards_pass st = true -> (n >= s)%Z ->
   BuySpec.stats_of (BuyPage.BuyRecordPage (BuySpec.with_connection connected st))
   = Some BuyPage.AllRecordsMinted)
  /\ (forall stats,
        BuySpec.stats_of (BuyPage.BuyRecordPage st) = Some stats ->
        stats <> BuyPage.AllRecordsMinted -> (n < s)%Z).
Proof.
  intros Hdata. split.
  - intros Hguards Hge.
    destruct (BuyRecordPage_stats (BuySpec.with_connection connected st) p s n uri)
      as (stats & -> & Hstats); [done | done |].
    f_equal. by apply Hstats.
  - intros stats Hstats Hne.
    destruct (BuyRecordPage_stats st p s n uri) as (stats' & Hstats' & Hiff);
      [done | |].
    { apply BuyRecordPage_listing_iff. by rewrite Hstats. }
    rewrite Hstats in Hstats'. injection Hstats' as <-.
    destruct (Z.lt_ge_cases n s) as [|Hge]; [done|].
    destruct Hne. apply Hiff. lia.
Qed.

Lemma BuyRecordPage_sold_out_witness :
  BuyPage.rc_data (BuyPage.readContracts BuySpec.sold_out_listed)
  = Some (1000000000000000000, 5, 5, lit "ipfs://cover")%Z
  /\ BuySpec.guards_pass BuySpec.sold_out_listed = true
  /\ (5 >= 5)%Z
  /\ BuySpec.stats_of
       (BuyPage.BuyRecordPage (BuySpec.with_connection true BuySpec.sold_out_listed))
     = Some BuyPage.AllRecordsMinted.
Proof.
  split_and!; [reflexivity | reflexivity | lia |].
  apply (BuyRecordPage_sold_out BuySpec.sold_out_listed
           1000000000000000000 5 5 "ipfs://cover" true);
    [reflexivity | reflexivity | lia].
Defined.

(** ** The My Records view *)

Section MyRecordsProperties.
Import MyRecords CollectionSpec.

Section Sanitize.
Variable getAddress : jsstring -> completion jsstring.
Variable isAddress : jsstring -> bool.
Variable JSON_stringify : jsstring -> jsstring.

Lemma normalizeAddress_None_nonempty c raw :
  address_functions_agree getAddress isAddress ->
  normalizeAddress getAddress (Some (c :: raw)) = None ->
  isAddress (JsString.trim (c :: raw)) = false.
Proof.
  intros (Hnil & Hthrow & _). unfold normalizeAddress.
  destruct (JsString.trim (c :: raw)) as [|c' t]; [done|].
  destruct (getAddress (c' :: t)) as [a|e] eqn:Hg; [done|].
  intros _. by eapply Hthrow.
Qed.

Lemma normalizeAddress_Some_nonempty raw addr :
  address_functions_agree getAddress isAddress ->
  normalizeAddress getAddress raw = Some addr -> addr <> [].
Proof.
  intros (_ & _ & Hnonempty). unfold normalizeAddress.
  destruct raw as [[|c raw]|]; [done | | done].
  destruct (JsString.trim (c :: raw)) as [|c' t]; [done|].
  destruct (getAddress (c' :: t)) as [a|e] eqn:Hg; [|done].
  intros [= <-] ->. by apply (Hnonempty (c' :: t)).
Qed.

Lemma sanitize_step_spec list console r :
  address_functions_agree getAddress isAddress ->
  sanitize_step getAddress isAddress JSON_stringify (list, console) r
  = (list ++ option_list (sanitized_for getAddress r),
     console ++ option_list (warning_for getAddress JSON_stringify r)).
Proof.
  intros Hlib. unfold sanitize_step, sanitized_for, warning_for.
  destruct (normalizeAddress getAddress (record r)) as [addr|] eqn:Hn.
  - pose proof (normalizeAddress_Some_nonempty _ _ Hlib Hn).
    destruct addr; [done|]. cbn. by rewrite app_nil_r.
  - destruct (record r) as [[|c raw]|];
      cbn [mbind option_bind option_list]; rewrite ?app_nil_r; try done.
    by rewrite (normalizeAddress_None_nonempty c raw).
Qed.

Lemma sanitize_fold_spec deployedRecords list console :
  address_functions_agree getAddress isAddress ->
  fold_left (sanitize_step getAddress isAddress JSON_stringify)
    deployedRecords (list, console)
  = (list ++ omap (sanitized_for getAddress) deployedRecords,
     console ++ omap (warning_for getAddress JSON_stringify) deployedRecords).
Proof.
  intros Hlib. revert list console.
  induction deployedRecords as [|r ds IH]; intros list console; cbn [fold_left].
  - by rewrite !app_nil_r.
  - rewrite sanitize_step_spec, IH by done. cbn [omap list_omap].
    destruct (sanitized_for getAddress r), (warning_for getAddress JSON_stringify r);
      cbn; by rewrite <- ?app_assoc, ?app_nil_r.
Qed.

(** The sanitized list holds the entries of the valid deployments, in
    order. *)
Lemma sanitizedRecords_omap deployedRecords :
  address_functions_agree getAddress isAddress ->
  sanitizedRecords getAddress isAddress JSON_stringify deployedRecords
  = omap (sanitized_for getAddress) deployedRecords.
Proof.
  intros Hlib. unfold sanitizedRecords, sanitizedRecords_run.
  by rewrite sanitize_fold_spec.
Qed.

End Sanitize.

Lemma contracts_omap getAddress userAddress deployedRecords :
  contracts (omap (sanitized_for getAddress) deployedRecords) userAddress
  = omap (call_for getAddress userAddress) deployedRecords.
Proof.
  unfold contracts. induction deployedRecords as [|r ds IH]; [done|].
  cbn [omap list_omap]. unfold sanitized_for at 1, call_for at 1.
  destruct (normalizeAddress getAddress (record r));
    cbn [mbind option_bind fmap list_fmap]; [f_equal|]; exact IH.
Qed.

Lemma push_items_app rec tokenIds items :
  push_items rec tokenIds items = items ++ (item_of rec <$> tokenIds).
Proof.
  unfold push_items. revert items.
  induction tokenIds as [|t ts IH]; intros items; cbn [fold_left fmap list_fmap].
  - by rewrite app_nil_r.
  - rewrite IH. by rewrite <- app_assoc.
Qed.

Lemma ownedItems_step_app (ownedTokensByContract : gmap jsstring (list Z)) items rec :
  ownedItems_step ownedTokensByContract items rec
  = items ++ (item_of rec <$> default [] (ownedTokensByContract !! key_of rec)).
Proof.
  unfold ownedItems_step, key_of.
  destruct (ownedTokensByContract !! toLowerCase (s_contractAddress rec))
    as [[|t ts]|]; cbn [default]; rewrite ?push_items_app; try done.
  all: cbn; by rewrite app_nil_r.
Qed.

(** The render items, as a flattening over the sanitized list. *)
Lemma ownedItems_bind (sanitized : list SanitizedRecord)
    (ownedTokensByContract : gmap jsstring (list Z)) :
  ownedItems sanitized ownedTokensByContract
  = sanitized ≫= fun rec =>
      item_of rec <$> default [] (ownedTokensByContract !! key_of rec).
Proof.
  unfold ownedItems.
  change (sanitized ≫= _) with ([] ++ sanitized ≫= fun rec =>
      item_of rec <$> default [] (ownedTokensByContract !! key_of rec)).
  generalize (@nil OwnedItem).
  induction sanitized as [|rec rest IH]; intros items; cbn [fold_left].
  - cbn. by rewrite app_nil_r.
  - rewrite IH, ownedItems_step_app. cbn [mbind list_bind]. by rewrite app_assoc.
Qed.

Implicit Types (sanitized : list SanitizedRecord) (readResults : list ReadResult)
  (console : list ConsoleEntry) (rec : SanitizedRecord) (i j k : nat).

Lemma ownedTokens_step_spec sanitized readResults
    (map : gmap jsstring (list Z)) console i rec :
  sanitized !! i = Some rec ->
  ownedTokens_step sanitized readResults (map, console) i
  = (match tokens_read readResults i with
     | [] => map
     | tokenIds => <[key_of rec := tokenIds]> map
     end,
     console ++ match readResults !! i with
                | Some (ReadFailure e) => [WarnReadFailure (s_contractAddress rec) e]
                | _ => []
                end).
Proof.
  intros Hrec. unfold ownedTokens_step, tokens_read. rewrite Hrec.
  destruct (readResults !! i) as [[[[|t ts]|]|e]|]; cbn; by rewrite ?app_nil_r.
Qed.

Lemma ownedTokens_after_S sanitized readResults console k rec :
  sanitized !! k = Some rec ->
  ownedTokens_after sanitized readResults console (S k)
  = (match tokens_read readResults k with
     | [] => fst (ownedTokens_after sanitized readResults console k)
     | tokenIds =>
         <[key_of rec := tokenIds]>
           (fst (ownedTokens_after sanitized readResults console k))
     end,
     snd (ownedTokens_after sanitized readResults console k)
     ++ match readResults !! k with
        | Some (ReadFailure e) => [WarnReadFailure (s_contractAddress rec) e]
        | _ => []
        end).
Proof.
  intros Hrec. unfold ownedTokens_after. rewrite seq_S, fold_left_app.
  cbn [fold_left Nat.add].
  destruct (fold_left _ (seq 0 k) _) as [map console'].
  by apply ownedTokens_step_spec.
Qed.

(** Every entry of the map was written by a successful, non-empty read. *)
Lemma ownedTokens_after_sound sanitized readResults console k key tokenIds :
  (k <= length sanitized)%nat ->
  fst (ownedTokens_after sanitized readResults console k) !! key = Some tokenIds ->
  tokenIds <> []
  /\ exists j rec, (j < k)%nat /\ sanitized !! j = Some rec
                   /\ key_of rec = key /\ tokens_read readResults j = tokenIds.
Proof.
  induction k as [|k IH]; intros Hk; [done|].
  destruct (lookup_lt_is_Some_2 sanitized k) as [rec Hrec]; [lia|].
  rewrite (ownedTokens_after_S _ _ _ _ rec Hrec). cbn [fst].
  intros Hlookup.
  assert (fst (ownedTokens_after sanitized readResults console k) !! key
          = Some tokenIds ->
          tokenIds <> []
          /\ exists j rec, (j < S k)%nat /\ sanitized !! j = Some rec
                           /\ key_of rec = key /\ tokens_read readResults j = tokenIds)
    as Hold.
  { intros H. destruct IH as (? & j & rec' & ? & ? & ? & ?); [lia | done |].
    split; [done|]. exists j, rec'. split_and!; [lia | done ..]. }
  destruct (tokens_read readResults k) as [|t ts] eqn:Hread; [by apply Hold|].
  destruct (decide (key_of rec = key)) as [<-|Hne].
  - rewrite lookup_insert_eq in Hlookup. injection Hlookup as <-.
    split; [done|]. exists k, rec. split_and!; [lia | done ..].
  - rewrite lookup_insert_ne in Hlookup by done. by apply Hold.
Qed.

(** When the reads of one address agree, the map holds what each
    non-empty read returned. *)
Lemma ownedTokens_after_complete sanitized readResults console k i rec :
  reads_agree sanitized readResults ->
  (k <= length sanitized)%nat -> (i < k)%nat ->
  sanitized !! i = Some rec ->
  tokens_read readResults i <> [] ->
  fst (ownedTokens_after sanitized readResults console k) !! key_of rec
  = Some (tokens_read readResults i).
Proof.
  intros Hagree. induction k as [|k IH]; intros Hk Hi Hrec Hread; [lia|].
  destruct (lookup_lt_is_Some_2 sanitized k) as [rec' Hrec']; [lia|].
  rewrite (ownedTokens_after_S _ _ _ _ rec' Hrec'). cbn [fst].
  destruct (decide (key_of rec' = key_of rec)) as [Hkey|Hne].
  - rewrite <- (Hagree k i rec' rec) by done.
    rewrite <- (Hagree k i rec' rec) in Hread by done.
    destruct (tokens_read readResults k) as [|t ts]; [done|].
    by rewrite Hkey, lookup_insert_eq.
  - assert (i <> k) by (intros ->; congruence).
    destruct (tokens_read readResults k) as [|t ts];
      rewrite ?lookup_insert_ne by done; apply IH; (lia || done).
Qed.

Lemma ownedTokens_after_warns sanitized readResults console k i rec e :
  (k <= length sanitized)%nat -> (i < k)%nat ->
  sanitized !! i = Some rec ->
  readResults !! i = Some (ReadFailure e) ->
  WarnReadFailure (s_contractAddress rec) e
  ∈ snd (ownedTokens_after sanitized readResults console k).
Proof.
  induction k as [|k IH]; intros Hk Hi Hrec Hfail; [lia|].
  destruct (lookup_lt_is_Some_2 sanitized k) as [rec' Hrec']; [lia|].
  rewrite (ownedTokens_after_S _ _ _ _ rec' Hrec'). cbn [snd].
  apply elem_of_app.
  destruct (decide (i = k)) as [->|Hne].
  - right. rewrite Hfail. replace rec' with rec by congruence. set_solver.
  - left. apply IH; (lia || done).
Qed.

(** What the map gives back for the contract at index [i]. *)
Lemma ownedTokens_lookup sanitized readResults console i rec :
  reads_agree sanitized readResults ->
  sanitized !! i = Some rec ->
  default []
    (fst (ownedTokens_after sanitized readResults console (length sanitized))
     !! key_of rec)
  = tokens_read readResults i.
Proof.
  intros Hagree Hrec.
  pose proof (lookup_lt_Some _ _ _ Hrec) as Hi.
  destruct (decide (tokens_read readResults i = [])) as [Hnil|Hne].
  - destruct (fst _ !! key_of rec) as [tokenIds|] eqn:Hlookup; [|done].
    apply ownedTokens_after_sound in Hlookup
      as (Hne & j & rec' & _ & Hrec' & Hkey & <-); [|done].
    by rewrite (Hagree j i rec' rec) in Hne.
  - by rewrite (ownedTokens_after_complete _ _ _ _ i rec).
Qed.

Lemma bind_imap {A B} (f : nat -> A -> list B) (g : A -> list B) (l : list A) :
  (forall i x, l !! i = Some x -> g x = f i x) ->
  l ≫= g = mjoin (imap f l).
Proof.
  revert f. induction l as [|x l IH]; intros f Hfg; [done|].
  cbn [mbind list_bind imap mjoin list_join]. f_equal.
  - by apply (Hfg 0%nat).
  - apply IH. intros i y Hy. by apply (Hfg (S i)).
Qed.

End MyRecordsProperties.

Lemma reads_agree_NoDup (sanitized : list MyRecords.SanitizedRecord)
    (readResults : list MyRecords.ReadResult) :
  NoDup (CollectionSpec.key_of <$> sanitized) ->
  CollectionSpec.reads_agree sanitized readResults.
Proof.
  intros Hnodup i j ri rj Hi Hj Hkey.
  replace j with i; [done|].
  apply (NoDup_lookup _ i j (CollectionSpec.key_of ri) Hnodup);
    rewrite list_lookup_fmap; [by rewrite Hi | by rewrite Hj, Hkey].
Qed.

Lemma ViemSample_agree :
  CollectionSpec.address_functions_agree ViemSample.getAddress ViemSample.isAddress.
Proof.
  split; [done|]. unfold ViemSample.getAddress.
  split; intros t; by destruct t, (ViemSample.isAddress _) eqn:?.
Qed.

(** C5, as stated, fails: a deployment whose record address is the empty
    string is left out without any warning. *)
Lemma sanitizedRecords_silent_on_empty :
  MyRecords.normalizeAddress ViemSample.getAddress (Some []) = None
  /\ MyRecords.sanitizedRecords_run ViemSample.getAddress ViemSample.isAddress
       ViemSample.JSON_stringify [ViemSample.deployment (Some []) "Untitled"]
     = ([], []).
Proof. by split. Qed.

(** C5, amended.  The batched ownership reads are exactly the reads for
    the deployments whose record address is valid, in order; every
    rendered item stems from such a deployment; and the warnings written
    are exactly one for each deployment whose address is invalid and not
    empty or missing. *)
Theorem sanitizedRecords_valid_only
    (getAddress : jsstring -> completion jsstring) (isAddress : jsstring -> bool)
    (JSON_stringify : jsstring -> jsstring)
    (deployedRecords : list MyRecords.DeployedRecord)
    (userAddress : option jsstring) :
  CollectionSpec.address_functions_agree getAddress isAddress ->
  let sanitized :=
    MyRecords.sanitizedRecords getAddress isAddress JSON_stringify deployedRecords in
  MyRecords.contracts sanitized userAddress
  = omap (CollectionSpec.call_for getAddress userAddress) deployedRecords
  /\ (forall (ownedTokensByContract : gmap jsstring (list Z)) item,
        item ∈ MyRecords.ownedItems sanitized ownedTokensByContract ->
        exists r,
          r ∈ deployedRecords
          /\ CollectionSpec.sanitized_for getAddress r
             = Some {| MyRecords.s_contractAddress := MyRecords.o_contractAddress item;
                       MyRecords.s_name := MyRecords.o_name item;
                       MyRecords.s_artist := MyRecords.o_artist item |})
  /\ snd (MyRecords.sanitizedRecords_run getAddress isAddress JSON_stringify
            deployedRecords)
     = omap (CollectionSpec.warning_for getAddress JSON_stringify) deployedRecords.
Proof.
  intros Hlib sanitized. subst sanitized.
  rewrite sanitizedRecords_omap by done. split_and!.
  - apply contracts_omap.
  - intros m item. rewrite ownedItems_bind.
    intros (rec & Hitem & Hrec)%list_elem_of_bind.
    apply list_elem_of_fmap in Hitem as (tokenId & -> & _).
    apply list_elem_of_omap in Hrec as (r & Hr & Hsan).
    exists r. split; [done|]. by destruct rec.
  - unfold MyRecords.sanitizedRecords_run. by rewrite sanitize_fold_spec.
Qed.

Lemma sanitizedRecords_valid_only_witness :
  let deployedRecords :=
    [ViemSample.deployment (Some ViemSample.record_A) "One";
     ViemSample.deployment (Some (lit "not an address")) "Two";
     ViemSample.deployment (Some []) "Three";
     ViemSample.deployment (Some (" " ++ ViemSample.record_B)) "Four"] in
  CollectionSpec.address_functions_agree ViemSample.getAddress ViemSample.isAddress
  /\ (MyRecords.call_address
        <$> MyRecords.contracts
              (MyRecords.sanitizedRecords ViemSample.getAddress ViemSample.isAddress
                 ViemSample.JSON_stringify deployedRecords) None)
     = [ViemSample.record_A; ViemSample.record_B]
  /\ snd (MyRecords.sanitizedRecords_run ViemSample.getAddress ViemSample.isAddress
            ViemSample.JSON_stringify deployedRecords)
     = [MyRecords.WarnInvalidRecordAddress
          (ViemSample.JSON_stringify "not an address")].
Proof.
  intros deployedRecords.
  destruct (sanitizedRecords_valid_only ViemSample.getAddress ViemSample.isAddress
              ViemSample.JSON_stringify deployedRecords None ViemSample_agree)
    as (Hcalls & _ & Hwarn).
  split; [exact ViemSample_agree|]. split.
  - rewrite Hcalls. reflexivity.
  - rewrite Hwarn. reflexivity.
Defined.

(** C6, as stated, fails: when one contract address is listed twice and
    only one of its two reads succeeds, both entries render the token the
    successful read returned, although the flattening of the reads has
    it once. *)
Lemma ownedItems_shared_address :
  let sanitized :=
    [ViemSample.entry ViemSample.record_A "One";
     ViemSample.entry ViemSample.record_A "One"] in
  let readResults :=
    [MyRecords.ReadSuccess (Some [7%Z]); MyRecords.ReadFailure (Error "reverted")] in
  let item := CollectionSpec.item_of (ViemSample.entry ViemSample.record_A "One") 7 in
  let rendered :=
    MyRecords.ownedItems sanitized
      (fst (MyRecords.ownedTokens_effect true (Some readResults) sanitized (∅, []))) in
  rendered = [item; item]
  /\ CollectionSpec.flattened_pairs sanitized readResults = [item]
  /\ rendered <> CollectionSpec.flattened_pairs sanitized readResults.
Proof. by vm_compute. Qed.

(** C6, amended.  Once the batched read has succeeded, and provided the
    entries that share a contract address have the same read outcome (as
    they do when the addresses are pairwise distinct), the rendered list
    is the flattening, over the valid contracts in order, of one item per
    (contract, owned token id) pair its read returned; a contract whose
    read failed is logged and contributes no item. *)
Theorem ownedItems_flattening (sanitized : list MyRecords.SanitizedRecord)
    (readResults : list MyRecords.ReadResult)
    (state : gmap jsstring (list Z) * list MyRecords.ConsoleEntry) :
  CollectionSpec.reads_agree sanitized readResults ->
  let state' :=
    MyRecords.ownedTokens_effect true (Some readResults) sanitized state in
  MyRecords.ownedItems sanitized (fst state')
  = CollectionSpec.flattened_pairs sanitized readResults
  /\ forall i rec e,
       sanitized !! i = Some rec ->
       readResults !! i = Some (MyRecords.ReadFailure e) ->
       CollectionSpec.tokens_read readResults i = []
       /\ MyRecords.WarnReadFailure (MyRecords.s_contractAddress rec) e ∈ snd state'.
Proof.
  intros Hagree state'. subst state'. unfold MyRecords.ownedTokens_effect.
  change (fold_left _ _ _)
    with (CollectionSpec.ownedTokens_after sanitized readResults (snd state)
            (length sanitized)).
  split.
  - rewrite ownedItems_bind. apply bind_imap. intros i rec Hrec.
    f_equal. by apply ownedTokens_lookup.
  - intros i rec e Hrec Hfail. split.
    + unfold CollectionSpec.tokens_read. by rewrite Hfail.
    + apply (ownedTokens_after_warns _ _ _ _ i); [done | | done | done].
      by eapply lookup_lt_Some.
Qed.

Lemma ownedItems_flattening_witness :
  let sanitized :=
    [ViemSample.entry ViemSample.record_A "One";
     ViemSample.entry ViemSample.record_B "Two"] in
  let readResults :=
    [MyRecords.ReadFailure (Error "reverted"); MyRecords.ReadSuccess (Some [1; 2]%Z)] in
  CollectionSpec.reads_agree sanitized readResults
  /\ MyRecords.ownedItems sanitized
       (fst (MyRecords.ownedTokens_effect true (Some readResults) sanitized (∅, [])))
     = [CollectionSpec.item_of (ViemSample.entry ViemSample.record_B "Two") 1;
        CollectionSpec.item_of (ViemSample.entry ViemSample.record_B "Two") 2].
Proof.
  intros sanitized readResults.
  assert (CollectionSpec.reads_agree sanitized readResults) as Hagree.
  { apply reads_agree_NoDup. apply (bool_decide_unpack _). by vm_compute. }
  split; [exact Hagree|].
  exact (proj1 (ownedItems_flattening sanitized readResults (∅, []) Hagree)).
Defined.

(** ** Empty collections *)

(** The My Records view names the empty result: once both fetches have
    completed without error and no item is owned, it renders the message
    that no records are owned. *)
Lemma MyRecords_render_empty (st : MyRecords.RenderState) :
  MyRecords.isFetching st = false -> MyRecords.isReading st = false ->
  MyRecords.fetchError st = None -> MyRecords.readError st = false ->
  MyRecords.items st = [] ->
  MyRecords.render st
  = [MyRecords.Heading "Your Record Collection"; MyRecords.NoRecordsMessage;
     MyRecords.Grid []].
Proof.
  intros Hf Hr He Hre Hi. unfold MyRecords.render.
  by rewrite Hf, Hr, He, Hre, Hi.
Qed.

(** The Store does not: after a successful query without deployments it
    renders its heading and an empty grid. *)
Lemma Store_render_empty (q : Store.Query) :
  Store.isLoading q = false -> Store.error q = None ->
  Store.records q = Normal [] ->
  Store.Store q = Normal [Store.Heading "Recent Releases"; Store.Grid []].
Proof.
  intros Hl He Hrec. unfold Store.Store. by rewrite Hrec, Hl, He.
Qed.

(** C7. The two views at an empty, successful result: the Store renders
    the heading and an empty grid, without any message, where the My
    Records view renders the message that no records are owned. *)
Theorem Store_empty_is_blank :
  Store.Store CollectionSpec.empty_store
  = Normal [Store.Heading "Recent Releases"; Store.Grid []]
  /\ MyRecords.render CollectionSpec.empty_collection
     = [MyRecords.Heading "Your Record Collection"; MyRecords.NoRecordsMessage;
        MyRecords.Grid []].
Proof.
  split.
  - by apply Store_render_empty.
  - by apply MyRecords_render_empty.
Qed.

(** ** Sorting *)

Section SortProperties.
Context {A : Type} (comparefn : A -> A -> Z) (rank : A -> Z).
Hypothesis comparefn_rank :
  forall a b, (comparefn a b <= 0)%Z <-> (rank a <= rank b)%Z.

Lemma insert_Permutation x l : JsArray.insert comparefn x l ≡ₚ x :: l.
Proof.
  induction l as [|y l IH]; cbn [JsArray.insert]; [done|].
  destruct (comparefn x y <=? 0)%Z; [done|].
  by rewrite IH, Permutation_swap.
Qed.

Lemma sort_Permutation l : JsArray.sort comparefn l ≡ₚ l.
Proof.
  induction l as [|x l IH]; [done|].
  cbn [JsArray.sort foldr]. rewrite insert_Permutation. by f_equiv.
Qed.

Lemma insert_sorted x l :
  StronglySorted (fun a b => rank a <= rank b)%Z l ->
  StronglySorted (fun a b => rank a <= rank b)%Z (JsArray.insert comparefn x l).
Proof.
  induction 1 as [|y l Hl IH Hy]; cbn [JsArray.insert].
  - by repeat constructor.
  - destruct (Z.leb_spec (comparefn x y) 0) as [Hle|Hgt].
    + apply comparefn_rank in Hle.
      constructor; [by constructor|].
      constructor; [done|]. eapply Forall_impl; [done|]. cbn. lia.
    + assert (rank y <= rank x)%Z.
      { destruct (Z.le_gt_cases (rank x) (rank y)) as [H%comparefn_rank|]; lia. }
      constructor; [done|].
      rewrite insert_Permutation. by constructor.
Qed.

Lemma sort_sorted l :
  StronglySorted (fun a b => rank a <= rank b)%Z (JsArray.sort comparefn l).
Proof.
  induction l as [|x l IH]; [constructor|].
  cbn [JsArray.sort foldr]. by apply insert_sorted.
Qed.

Lemma sort_ranks_sorted l :
  StronglySorted Z.le (rank <$> JsArray.sort comparefn l).
Proof.
  eapply StronglySorted_fmap; [|apply sort_sorted]. done.
Qed.

(** The ranks come out in one order whatever the order of the input. *)
Lemma sort_ranks_unique l1 l2 :
  l1 ≡ₚ l2 ->
  rank <$> JsArray.sort comparefn l1 = rank <$> JsArray.sort comparefn l2.
Proof.
  intros Hperm.
  apply (StronglySorted_unique Z.le); [apply sort_ranks_sorted ..|].
  by rewrite !sort_Permutation, Hperm.
Qed.

End SortProperties.

(** ** The Owner page *)

Lemma compareTracks_rank a b :
  (OwnerPage.compareTracks a b <= 0)%Z
  <-> (OwnerSpec.track_number a <= OwnerSpec.track_number b)%Z.
Proof. unfold OwnerPage.compareTracks, OwnerSpec.track_number. lia. Qed.

Lemma track_numbers_render window (songs_ : list OwnerPage.Song) :
  OwnerSpec.track_numbers (OwnerPage.TrackList (OwnerPage.renderSong window <$> songs_))
  = OwnerSpec.track_number <$> songs_.
Proof. unfold OwnerSpec.track_numbers. by rewrite <- list_fmap_compose. Qed.

Lemma OwnerRecordPage_tracks_nonempty window metadata (songs_ : list OwnerPage.Song) :
  OwnerPage.songs metadata = Some songs_ -> songs_ <> [] ->
  OwnerPage.OwnerRecordPage_tracks window (Some metadata)
  = OwnerPage.TrackList
      (OwnerPage.renderSong window <$> JsArray.sort OwnerPage.compareTracks songs_).
Proof.
  intros Hsongs Hne. unfold OwnerPage.OwnerRecordPage_tracks.
  destruct metadata as [? ? ? ? ? m_songs]. cbn in Hsongs. subst m_songs.
  by destruct songs_.
Qed.

(** C8. For a metadata document with a non-empty list of songs, the Owner
    page renders one track per song, each with the IPFS-resolved form of
    the song's audio URI as its audio source, in ascending order of track
    number; the order of the track numbers is the same for every order of
    the songs in the document. *)
Theorem OwnerRecordPage_tracks_sorted (window : Window)
    (metadata : OwnerPage.RecordMetadata) (songs_ : list OwnerPage.Song) :
  OwnerPage.songs metadata = Some songs_ -> songs_ <> [] ->
  exists items sorted,
    OwnerPage.OwnerRecordPage_tracks window (Some metadata) = OwnerPage.TrackList items
    /\ sorted ≡ₚ songs_
    /\ Forall2 (OwnerSpec.presents window) items sorted
    /\ StronglySorted Z.le (OwnerSpec.track_numbers (OwnerPage.TrackList items))
    /\ forall metadata' songs',
         OwnerPage.songs metadata' = Some songs' -> songs' ≡ₚ songs_ ->
         OwnerSpec.track_numbers
           (OwnerPage.OwnerRecordPage_tracks window (Some metadata'))
         = OwnerSpec.track_numbers (OwnerPage.TrackList items).
Proof.
  intros Hsongs Hne.
  exists (OwnerPage.renderSong window <$> JsArray.sort OwnerPage.compareTracks songs_),
         (JsArray.sort OwnerPage.compareTracks songs_).
  split_and!.
  - by apply OwnerRecordPage_tracks_nonempty.
  - apply sort_Permutation.
  - apply Forall2_fmap_l, Forall_Forall2_diag, Forall_forall. by intros song _.
  - rewrite track_numbers_render.
    apply (sort_ranks_sorted _ _ compareTracks_rank).
  - intros metadata' songs' Hsongs' Hperm.
    rewrite (OwnerRecordPage_tracks_nonempty window metadata' songs' Hsongs').
    + rewrite !track_numbers_render.
      by apply (sort_ranks_unique _ _ compareTracks_rank).
    + intros ->. apply Permutation_nil_l in Hperm. by subst.
Qed.

Lemma OwnerRecordPage_tracks_sorted_witness :
  let window := {| location_hostname := "localhost" |} in
  let songs_ := [OwnerSpec.song 3 "c"; OwnerSpec.song 1 "a"; OwnerSpec.song 2 "b"] in
  OwnerPage.songs (OwnerSpec.album songs_) = Some songs_
  /\ songs_ <> []
  /\ exists items sorted,
       OwnerPage.OwnerRecordPage_tracks window (Some (OwnerSpec.album songs_))
       = OwnerPage.TrackList items
       /\ sorted ≡ₚ songs_
       /\ Forall2 (OwnerSpec.presents window) items sorted
       /\ StronglySorted Z.le (OwnerSpec.track_numbers (OwnerPage.TrackList items))
       /\ forall metadata' songs',
            OwnerPage.songs metadata' = Some songs' -> songs' ≡ₚ songs_ ->
            OwnerSpec.track_numbers
              (OwnerPage.OwnerRecordPage_tracks window (Some metadata'))
            = OwnerSpec.track_numbers (OwnerPage.TrackList items).
Proof.
  intros window songs_. split; [reflexivity|]. split; [discriminate|].
  apply (OwnerRecordPage_tracks_sorted window (OwnerSpec.album songs_) songs_);
    [reflexivity | discriminate].
Defined.

(** ** The record card *)

Section RecordBoxProperties.
Import RecordBox RecordBoxSpec.

(** A run of the effect leaves no image marked as loading. *)
Lemma runEffect_settled window props read fetch st :
  isLoadingImage st = false ->
  isLoadingImage (runEffect window props read fetch st) = false.
Proof.
  intros Hst. unfold runEffect.
  destruct (data read) as [[|c uri]|]; [done | | done].
  by destruct (isLoading read).
Qed.

(** A run of the effect whose [try] block throws records the error and
    clears the image. *)
Lemma runEffect_throw window props read fetch st onchainURI e :
  isLoading read = false -> data read = Some onchainURI -> onchainURI <> [] ->
  resolveImage window (variant props) onchainURI fetch = Throw e ->
  runEffect window props read fetch st
  = {| imageUrl := None; isLoadingImage := false; imageError := Some e |}.
Proof.
  intros Hload Hdata Hne Hthrow. unfold runEffect. rewrite Hdata, Hload.
  destruct onchainURI as [|c uri]; [done|]. by rewrite Hthrow.
Qed.

(** With an error in either place and nothing loading, the card shows
    the fallback image. *)
Lemma RecordBox_error props read st cfg :
  readConfig props = Normal cfg ->
  isLoading read = false -> isLoadingImage st = false ->
  is_Some (error read) \/ is_Some (imageError st) ->
  RecordBox props read st = Normal FallbackImage.
Proof.
  intros Hcfg Hload Hst Herr. unfold RecordBox, useRecordImage.
  rewrite Hcfg, Hload, Hst. cbn.
  destruct (error read) as [e|]; [done|].
  destruct Herr as [[? [=]]|[e ->]]. done.
Qed.

End RecordBoxProperties.

(** C9. For either variant of the record card, once the resolution of the
    image has failed (the on-chain read of the URI ended in an error, the
    fetch of the metadata was rejected or answered with an error status,
    the metadata was no JSON, or it had no image field) the card renders
    the fallback image, and rendering does not throw. *)
Theorem RecordBox_fallback (window : Window) (props : RecordBox.Props)
    (read : RecordBox.ReadContract) (fetch : jsstring -> RecordBox.FetchOutcome)
    (st : RecordBox.ImageState) (cfg : RecordBox.ReadConfig) :
  RecordBox.readConfig props = Normal cfg ->
  RecordBox.isLoadingImage st = false ->
  RecordBoxSpec.resolution_fails window props read fetch ->
  RecordBox.RecordBox props read (RecordBox.runEffect window props read fetch st)
  = Normal RecordBox.FallbackImage.
Proof.
  intros Hcfg Hst Hfails.
  assert (forall onchainURI e,
            RecordBox.isLoading read = false ->
            RecordBox.data read = Some onchainURI -> onchainURI <> [] ->
            RecordBox.resolveImage window (RecordBox.variant props) onchainURI fetch
            = Throw e ->
            RecordBox.RecordBox props read
              (RecordBox.runEffect window props read fetch st)
            = Normal RecordBox.FallbackImage) as Hthrow.
  { intros onchainURI e Hload Hdata Hne Hres.
    rewrite (runEffect_throw _ _ _ _ _ onchainURI e) by done.
    apply (RecordBox_error _ _ _ cfg); [done | done | done |]. right. by eexists. }
  destruct Hfails as [e Hload Herr
                     | tokenId uri e Hv Hload Hdata Hne Hfetch
                     | tokenId uri status json Hv Hload Hdata Hne Hfetch
                     | tokenId uri status e Hv Hload Hdata Hne Hfetch
                     | tokenId uri status json Hv Hload Hdata Hne Hfetch Himage].
  - apply (RecordBox_error _ _ _ cfg); [done | done | |].
    + by apply runEffect_settled.
    + left. by eexists.
  - eapply (Hthrow uri); [done ..|].
    unfold RecordBox.resolveImage. by rewrite Hv, Hfetch.
  - eapply (Hthrow uri); [done ..|].
    unfold RecordBox.resolveImage. by rewrite Hv, Hfetch.
  - eapply (Hthrow uri); [done ..|].
    unfold RecordBox.resolveImage. by rewrite Hv, Hfetch.
  - eapply (Hthrow uri); [done ..|].
    unfold RecordBox.resolveImage. rewrite Hv, Hfetch. cbn.
    by destruct Himage as [-> | ->].
Qed.

Lemma RecordBox_fallback_witness :
  let window := {| location_hostname := "localhost" |} in
  RecordBox.readConfig RecordBoxSpec.owned_card = Normal (RecordBox.tokenURI 1)
  /\ RecordBoxSpec.resolution_fails window RecordBoxSpec.owned_card
       RecordBoxSpec.token_uri_read RecordBoxSpec.not_found
  /\ RecordBox.RecordBox RecordBoxSpec.owned_card RecordBoxSpec.token_uri_read
       (RecordBox.runEffect window RecordBoxSpec.owned_card
          RecordBoxSpec.token_uri_read RecordBoxSpec.not_found
          RecordBox.initialImageState)
     = Normal RecordBox.FallbackImage.
Proof.
  intros window.
  assert (RecordBoxSpec.resolution_fails window RecordBoxSpec.owned_card
            RecordBoxSpec.token_uri_read RecordBoxSpec.not_found) as Hfails.
  { by eapply (RecordBoxSpec.metadata_fetch_not_ok _ _ _ _ (RecordBox.IdBigInt 1)
                 (lit "ipfs://token/1.json")). }
  split; [reflexivity|]. split; [exact Hfails|].
  exact (RecordBox_fallback window RecordBoxSpec.owned_card
           RecordBoxSpec.token_uri_read RecordBoxSpec.not_found
           RecordBox.initialImageState (RecordBox.tokenURI 1)
           eq_refl eq_refl Hfails).
Defined.

(** * Further properties of the code *)

(** ** White space and signs in front of the digits *)

Section MoreParsing.
Import JsString JsBigInt PriceSpec.

Lemma trimStart_blank s : forallb is_white_space s = true -> trimStart s = [].
Proof.
  induction s as [|c t IH]; [done|]. cbn [forallb trimStart].
  intros [-> Ht]%andb_prop. by apply IH.
Qed.

Lemma trimEnd_snoc s c : is_white_space c = false -> trimEnd (s ++ [c]) = s ++ [c].
Proof.
  intros Hc. induction s as [|d t IH]; cbn [app trimEnd].
  - by rewrite Hc.
  - rewrite IH. by destruct t.
Qed.

Lemma trim_bare c s d :
  is_white_space c = false -> is_white_space d = false ->
  trim (c :: s ++ [d]) = c :: s ++ [d].
Proof.
  intros Hc Hd. unfold trim. cbn [trimStart]. rewrite Hc.
  by apply (trimEnd_snoc (c :: s)).
Qed.

Lemma trimEnd_cons c t :
  trimEnd (c :: t)
  = match trimEnd t with
    | [] => if is_white_space c then [] else [c]
    | t' => c :: t'
    end.
Proof. done. Qed.

Lemma trimEnd_idemp s : trimEnd (trimEnd s) = trimEnd s.
Proof.
  induction s as [|c t IH]; [done|]. rewrite trimEnd_cons.
  destruct (trimEnd t) as [|c' t'] eqn:Et.
  - destruct (is_white_space c) eqn:Hc; [done|]. cbn. by rewrite Hc.
  - by rewrite trimEnd_cons, IH.
Qed.

Lemma trimStart_head s :
  match trimStart s with
  | [] => True
  | c :: _ => is_white_space c = false
  end.
Proof.
  induction s as [|c t IH]; [done|]. cbn [trimStart].
  by destruct (is_white_space c) eqn:Hc.
Qed.

Lemma trimEnd_head c t :
  is_white_space c = false -> exists t', trimEnd (c :: t) = c :: t'.
Proof.
  intros Hc. cbn [trimEnd]. destruct (trimEnd t); [|by eexists].
  rewrite Hc. by eexists.
Qed.

(** Trimming twice is trimming once. *)
Lemma trim_idemp s : trim (trim s) = trim s.
Proof.
  unfold trim. pose proof (trimStart_head s) as Hhead.
  destruct (trimStart s) as [|c t]; [done|].
  destruct (trimEnd_head c t Hhead) as [t' Ht']. rewrite Ht'.
  cbn [trimStart]. rewrite Hhead, <- Ht'. apply trimEnd_idemp.
Qed.

Lemma trim_blank s : forallb is_white_space s = true -> trim s = [].
Proof. intros Hs. unfold trim. by rewrite trimStart_blank. Qed.

(** A code unit that is no digit of any radix stops the parse. *)
Lemma digits_value_stop radix a c b acc :
  digit_value c = None -> digits_value radix (a ++ c :: b) acc = None.
Proof.
  intros Hc. revert acc. induction a as [|d a IH]; intros acc; cbn [app digits_value].
  - by rewrite Hc.
  - destruct (digit_value d) as [v|]; [|done]. by destruct (v <? radix).
Qed.

Lemma parse_digits_stop radix a c b :
  digit_value c = None -> parse_digits radix (a ++ c :: b) = None.
Proof.
  intros Hc. unfold parse_digits.
  destruct (a ++ c :: b) eqn:E; [done|]. rewrite <- E. by apply digits_value_stop.
Qed.

Lemma N_toString_decimal n : is_decimal (N_toString n) = true.
Proof. apply N_toString_numeral. Qed.

(** Printing a bigint and parsing the text gives the bigint back. *)
Lemma StringToBigInt_toString z : StringToBigInt (toString z) = Some z.
Proof.
  destruct z as [|p|p].
  - done.
  - change (toString (Z.pos p)) with (N_toString (N.pos p)).
    by rewrite StringToBigInt_decimal, N_toString_value by apply N_toString_decimal.
  - change (toString (Z.neg p)) with ("-"%char :: N_toString (N.pos p)).
    pose proof (N_toString_decimal (N.pos p)) as Hdec.
    pose proof (N_toString_value (N.pos p)) as Hval.
    unfold StringToBigInt, trim. cbn [trimStart].
    change (is_white_space "-") with false. cbv iota.
    assert (trimEnd ("-"%char :: N_toString (N.pos p))
            = "-"%char :: N_toString (N.pos p)) as ->.
    { cbn [trimEnd]. rewrite trimEnd_digits.
      - destruct (N_toString (N.pos p)); [done|done].
      - unfold is_decimal in Hdec. by destruct (N_toString (N.pos p)). }
    cbv zeta. change (Ascii.eqb "-" "0") with false.
    change (Ascii.eqb "-" "+") with false. change (Ascii.eqb "-" "-") with true.
    cbn [andb]. rewrite parse_digits_decimal, Hval by done. done.
Qed.

Lemma toString_inj z1 z2 : toString z1 = toString z2 -> z1 = z2.
Proof.
  intros H. apply (f_equal StringToBigInt) in H.
  rewrite !StringToBigInt_toString in H. by injection H.
Qed.

End MoreParsing.

(** ** formatETHPrice: blank input, repeated formatting, distinct amounts *)

Section MoreFormatPrice.
Import JsString JsBigInt PriceSpec.

Lemma toString_shape w :
  exists c0 tl,
    toString w = c0 :: tl /\ forallb is_digit tl = true
    /\ (is_digit c0 = true \/ c0 = "-"%char).
Proof.
  assert (forall n, exists c0 tl,
            N_toString n = c0 :: tl /\ forallb is_digit tl = true
            /\ is_digit c0 = true) as Hn.
  { intros n. pose proof (N_toString_digits n) as Hd.
    pose proof (N_toString_nonempty n) as Hne.
    destruct (N_toString n) as [|c0 tl]; [done|].
    cbn in Hd. apply andb_prop in Hd as [? ?]. by exists c0, tl. }
  destruct w as [|p|p].
  - by exists "0"%char, []; split_and!; [| |left].
  - destruct (Hn (N.pos p)) as (c0 & tl & H & ? & ?). exists c0, tl. split_and!; auto.
  - exists "-"%char, (N_toString (N.pos p)). split_and!; [done | | by right].
    apply N_toString_digits.
Qed.

(** The formatted text of a parsed amount: a numeral, a point, a fraction
    and the unit. *)
Lemma formatETHPrice_shape s z :
  StringToBigInt s = Some z ->
  exists w f, formatETHPrice s = Normal (toString w ++ "."%char :: f ++ " ETH").
Proof.
  intros Hparse. unfold formatETHPrice, formatETHPrice_body, BigInt.
  rewrite Hparse. cbn [mbind completion_bind cbind]. unfold div, rem.
  rewrite !decide_False by done. cbn [mbind completion_bind cbind].
  destruct (replace_trailing_zeros _) as [|c f].
  - by exists (z ÷ WEI_PER_ETH)%Z, (lit "0000").
  - by exists (z ÷ WEI_PER_ETH)%Z, (c :: f).
Qed.

(** Such a text is no integer literal. *)
Lemma formatted_unparsable w f :
  StringToBigInt (toString w ++ "."%char :: f ++ " ETH") = None.
Proof.
  destruct (toString_shape w) as (c0 & tl & -> & Htl & Hc0).
  assert (is_white_space c0 = false) as Hws.
  { destruct Hc0 as [?| ->]; [by apply is_digit_not_white_space | done]. }
  assert (trim (c0 :: tl ++ "."%char :: f ++ " ETH")
          = c0 :: tl ++ "."%char :: f ++ " ETH") as Htrim.
  { replace (tl ++ "."%char :: f ++ " ETH")
      with ((tl ++ "."%char :: f ++ " ET") ++ ["H"%char]).
    - by apply trim_bare.
    - rewrite <- !app_assoc. cbn [app]. f_equal. f_equal.
      by rewrite <- app_assoc. }
  unfold StringToBigInt. cbn [app]. rewrite Htrim. cbv zeta.
  assert (forall lower upper : ascii,
            is_digit lower = false -> is_digit upper = false ->
            lower <> "."%char -> upper <> "."%char ->
            match tl ++ "."%char :: f ++ " ETH" with
            | c1 :: _ => Ascii.eqb c1 lower || Ascii.eqb c1 upper
            | [] => false
            end = false) as Hprefixed.
  { intros lower upper Hl Hu Hl' Hu'. destruct tl as [|c1 tl]; cbn [app].
    - apply orb_false_intro; by apply Ascii.eqb_neq.
    - cbn in Htl. apply andb_prop in Htl as [Hc1 _].
      by rewrite !(is_digit_eqb c1). }
  rewrite !Hprefixed, !andb_false_r by done.
  pose proof (parse_digits_stop 10 (c0 :: tl) "." (f ++ " ETH") eq_refl) as Hall.
  cbn [app] in Hall.
  rewrite (parse_digits_stop 10 tl), Hall by done.
  by repeat destruct (Ascii.eqb c0 _).
Qed.

Lemma not_in_digits c s :
  is_digit c = false -> forallb is_digit s = true -> c ∉ s.
Proof.
  intros Hc Hs Hin. apply list_elem_of_In in Hin.
  rewrite forallb_forall in Hs. apply Hs in Hin. congruence.
Qed.

(** Two texts cut at the same code unit, which occurs in neither front
    part, have the same parts. *)
Lemma app_cons_inj_first {A} (c : A) (a1 b1 a2 b2 : list A) :
  c ∉ a1 -> c ∉ a2 -> a1 ++ c :: b1 = a2 ++ c :: b2 -> a1 = a2 /\ b1 = b2.
Proof.
  revert a2. induction a1 as [|x a1 IH]; intros [|y a2] H1 H2 Heq; cbn in Heq.
  - by injection Heq.
  - injection Heq as <- _. by apply not_elem_of_cons in H2 as [? _].
  - injection Heq as -> _. by apply not_elem_of_cons in H1 as [? _].
  - injection Heq as <- Heq.
    apply not_elem_of_cons in H1 as [_ H1]. apply not_elem_of_cons in H2 as [_ H2].
    by destruct (IH a2 H1 H2 Heq) as [-> ->].
Qed.

Lemma shown_fraction_inj f1 f2 r1 r2 :
  trimmed_fraction_of f1 r1 -> trimmed_fraction_of f2 r2 ->
  shown_fraction f1 = shown_fraction f2 -> f1 = f2.
Proof.
  intros (_ & _ & Hlast1 & _) (_ & _ & Hlast2 & _).
  destruct f1 as [|c1 f1], f2 as [|c2 f2]; cbn [shown_fraction]; try done.
  - intros H. injection H as <- <-. by destruct Hlast2.
  - intros H. injection H as -> ->. by destruct Hlast1.
Qed.

End MoreFormatPrice.

(** X1. An input that is empty or consists of white space only is taken
    for the amount zero: it is formatted as ["0.0000 ETH"], not handed
    back. *)
Theorem formatETHPrice_blank (s : jsstring) :
  forallb JsString.is_white_space s = true ->
  formatETHPrice s = Normal (lit "0.0000 ETH").
Proof.
  intros Hs.
  rewrite (formatETHPrice_of_N s 0); [done|].
  unfold JsBigInt.StringToBigInt. by rewrite trim_blank.
Qed.

Lemma formatETHPrice_blank_witness :
  forallb JsString.is_white_space "  " = true
  /\ formatETHPrice "  " = Normal (lit "0.0000 ETH").
Proof.
  split; [reflexivity|]. apply (formatETHPrice_blank "  "). reflexivity.
Defined.

(** X2. Formatting is idempotent: whatever [formatETHPrice] returns, it
    returns unchanged when given it again, because a formatted amount is
    no integer literal. *)
Theorem formatETHPrice_idempotent (s r : jsstring) :
  formatETHPrice s = Normal r -> formatETHPrice r = Normal r.
Proof.
  destruct (JsBigInt.StringToBigInt s) as [z|] eqn:Hparse.
  - destruct (formatETHPrice_shape s z Hparse) as (w & f & ->).
    intros [= <-]. apply formatETHPrice_unparsed, formatted_unparsable.
  - rewrite (formatETHPrice_unparsed s Hparse). intros [= <-].
    by apply formatETHPrice_unparsed.
Qed.

Lemma formatETHPrice_idempotent_witness :
  formatETHPrice "2500000000000000000" = Normal (lit "2.5 ETH")
  /\ formatETHPrice "2.5 ETH" = Normal (lit "2.5 ETH").
Proof.
  split; [reflexivity|].
  apply (formatETHPrice_idempotent "2500000000000000000"). reflexivity.
Defined.

(** X3. Formatting loses nothing: two digit strings that are formatted
    alike denote the same amount. *)
Theorem formatETHPrice_injective (s1 s2 : jsstring) :
  PriceSpec.is_decimal s1 = true -> PriceSpec.is_decimal s2 = true ->
  formatETHPrice s1 = formatETHPrice s2 ->
  PriceSpec.decimal_value s1 = PriceSpec.decimal_value s2.
Proof.
  intros H1 H2.
  rewrite (formatETHPrice_of_N s1 (PriceSpec.decimal_value s1)),
          (formatETHPrice_of_N s2 (PriceSpec.decimal_value s2))
    by by apply StringToBigInt_decimal.
  set (n1 := PriceSpec.decimal_value s1). set (n2 := PriceSpec.decimal_value s2).
  pose proof (fraction_trimmed (n1 mod 10 ^ 18)) as Hf1.
  pose proof (fraction_trimmed (n2 mod 10 ^ 18)) as Hf2.
  specialize (Hf1 ltac:(by apply N.mod_lt)). specialize (Hf2 ltac:(by apply N.mod_lt)).
  set (f1 := JsString.replace_trailing_zeros _) in *.
  set (f2 := JsString.replace_trailing_zeros _) in *.
  intros [= Heq].
  apply (app_cons_inj_first "."%char) in Heq as [Hwhole Hrest];
    [| apply not_in_digits; [done | apply N_toString_digits] ..].
  apply app_inv_tail in Hrest.
  apply (shown_fraction_inj _ _ _ _ Hf1 Hf2) in Hrest.
  apply (f_equal PriceSpec.decimal_value) in Hwhole.
  rewrite !N_toString_value in Hwhole.
  destruct Hf1 as (_ & _ & _ & Hr1), Hf2 as (_ & _ & _ & Hr2).
  rewrite Hrest, Hr2 in Hr1.
  rewrite (N.div_mod n1 (10 ^ 18)), (N.div_mod n2 (10 ^ 18)) by done.
  by rewrite Hwhole, Hr1.
Qed.

Lemma formatETHPrice_injective_witness :
  PriceSpec.is_decimal "0100" = true /\ PriceSpec.is_decimal "100" = true
  /\ formatETHPrice "0100" = formatETHPrice "100"
  /\ PriceSpec.decimal_value "0100" = PriceSpec.decimal_value "100".
Proof.
  split_and!; [reflexivity | reflexivity | reflexivity |].
  apply (formatETHPrice_injective "0100" "100"); reflexivity.
Defined.

(** ** resolveIpfsUrl: lengths and repeated resolution *)

Section MoreReplace.
Import JsString UrlSpec.

Lemma length_replace pattern replacement s :
  (length s <= length (replace pattern replacement s) + length pattern)%nat.
Proof.
  unfold replace. destruct (indexOf pattern s) as [pos|]; [|lia].
  rewrite !length_app, length_take, length_drop. lia.
Qed.

Lemma indexOf_skip pattern c t :
  ~ pattern `prefix_of` (c :: t) ->
  indexOf pattern (c :: t) = S <$> indexOf pattern t.
Proof. intros H. cbn [indexOf]. by rewrite bool_decide_eq_false_2. Qed.

(** The marker does not occur in a gateway prefix, nor across its end. *)
Lemma gateway_without_marker window X :
  ~ contains IPFS_SCHEME X -> ~ contains IPFS_SCHEME (selected_gateway window ++ X).
Proof.
  intros HX%indexOf_None. apply indexOf_None.
  unfold selected_gateway. case_decide; cbn [lit list_ascii_of_string app].
  all: repeat (rewrite indexOf_skip by (intros [k Hk]; discriminate Hk)).
  all: by rewrite HX.
Qed.

End MoreReplace.

(** X4. The resolver never hands its input back: the result is at least
    14 code units longer than the input, for the marker takes 7 away and
    the shorter gateway prefix adds 21. *)
Theorem resolveIpfsUrl_longer (window : Window) (s : jsstring) :
  (length s + 14 <= length (resolveIpfsUrl window s))%nat
  /\ resolveIpfsUrl window s <> s.
Proof.
  assert (length s + 14 <= length (resolveIpfsUrl window s))%nat as Hlen.
  { rewrite resolveIpfsUrl_gateway, length_app.
    pose proof (length_replace IPFS_SCHEME "" s) as Hr.
    change (length IPFS_SCHEME) with 7%nat in Hr.
    unfold UrlSpec.selected_gateway.
    case_decide;
      [change (length (lit "http://127.0.0.1:8080/ipfs/")) with 27%nat
      |change (length (lit "https://ipfs.io/ipfs/")) with 21%nat]; lia. }
  split; [done|]. intros Heq. rewrite Heq in Hlen. lia.
Qed.

(** X5. Resolving is not idempotent: resolving an already resolved IPFS
    URI puts a second gateway prefix in front of the first. *)
Theorem resolveIpfsUrl_twice (window : Window) (X : jsstring) :
  ~ UrlSpec.contains "ipfs://" X ->
  resolveIpfsUrl window (resolveIpfsUrl window ("ipfs://" ++ X))
  = UrlSpec.selected_gateway window ++ UrlSpec.selected_gateway window ++ X.
Proof.
  intros HX. rewrite !resolveIpfsUrl_gateway.
  change (lit "ipfs://") with IPFS_SCHEME.
  rewrite replace_prefix. change (lit "" ++ X) with X.
  by rewrite replace_absent by by apply gateway_without_marker.
Qed.

Lemma resolveIpfsUrl_twice_witness :
  ~ UrlSpec.contains "ipfs://" "QmCover"
  /\ resolveIpfsUrl UrlSpec.shop_window
       (resolveIpfsUrl UrlSpec.shop_window ("ipfs://" ++ "QmCover"))
     = lit "https://ipfs.io/ipfs/https://ipfs.io/ipfs/QmCover".
Proof.
  assert (~ UrlSpec.contains "ipfs://" "QmCover") as Habsent
    by (by apply indexOf_None).
  split; [done|].
  exact (resolveIpfsUrl_twice UrlSpec.shop_window "QmCover" Habsent).
Defined.

(** ** The Buy page: the mint control, an empty preview URI, no throw *)

Section MoreBuyPage.
Import BuyPage BuySpec.

Lemma formatETHPrice_toString_nonneg p :
  (0 <= p)%Z ->
  exists whole trimmed : jsstring,
    PriceSpec.numeral_of whole (Z.to_N p / 10 ^ 18)
    /\ PriceSpec.trimmed_fraction_of trimmed (Z.to_N p mod 10 ^ 18)
    /\ formatETHPrice (JsBigInt.toString p)
       = Normal (whole ++ "." ++ PriceSpec.shown_fraction trimmed ++ " ETH").
Proof.
  intros Hp. eexists _, _. split_and!.
  - apply N_toString_numeral.
  - apply fraction_trimmed. by apply N.mod_lt.
  - apply formatETHPrice_of_N. rewrite StringToBigInt_toString. f_equal. lia.
Qed.

Lemma BuyRecordPage_normal st : exists view, BuyRecordPage st = Normal view.
Proof.
  unfold BuyRecordPage, useContractData.
  destruct st as [w ie ic mp [[[a|] [nm|] [sy|]]|] el [[[[[p su] tc] [|c u]]|] l e m]];
    destruct el, l, e; cbn; try by eexists.
  destruct (tc >=? su)%Z; cbn; [by eexists|].
  destruct ic; cbn; [|by eexists].
  destruct (formatETHPrice_total (JsBigInt.toString p)) as [r ->]. by eexists.
Qed.

End MoreBuyPage.

(** X6. When the Buy page renders the mint control, a wallet is connected
    and the minted count is below the supply; the button is disabled
    exactly while a signature is pending (its sold-out test never fires
    there) and is labelled accordingly; and the price line is the fetched
    mint price put through [formatETHPrice], which for a price that is not
    negative is the formatted amount, never the raw integer. *)
Theorem BuyRecordPage_mint_control (st : BuyPage.PageState)
    (label : jsstring) (disabled : bool) (price : jsstring) (minted total : Z) :
  BuySpec.stats_of (BuyPage.BuyRecordPage st)
  = Some (BuyPage.MintControl label disabled price minted total) ->
  BuyPage.isConnected st = true
  /\ (minted < total)%Z
  /\ disabled = BuyPage.isMintPending st
  /\ (exists data symbol_,
        BuyPage.recordEmitData st = Some data
        /\ BuyPage.symbol data = Some symbol_
        /\ label = if BuyPage.isMintPending st then lit "Waiting for Signature..."
                   else "Mint " ++ symbol_)
  /\ exists p uri,
       BuyPage.rc_data (BuyPage.readContracts st) = Some (p, total, minted, uri)
       /\ formatETHPrice (JsBigInt.toString p) = Normal price
       /\ ((0 <= p)%Z ->
           exists whole trimmed : jsstring,
             PriceSpec.numeral_of whole (Z.to_N p / 10 ^ 18)
             /\ PriceSpec.trimmed_fraction_of trimmed (Z.to_N p mod 10 ^ 18)
             /\ price = whole ++ "." ++ PriceSpec.shown_fraction trimmed ++ " ETH").
Proof.
  unfold BuyPage.BuyRecordPage, BuyPage.useContractData.
  destruct st as [w ie ic mp [[[a|] [nm|] [sy|]]|] el [[[[[p su] tc] [|c u]]|] l e m]];
    destruct el, l, e; cbn; try done.
  destruct (Z.geb_spec tc su) as [Hge|Hlt]; cbn; [done|].
  destruct ic; cbn; [|done].
  destruct (formatETHPrice (JsBigInt.toString p)) as [r|] eqn:Hprice; cbn; [|done].
  intros [= <- <- <- <- <-]. split_and!; [done | lia | by rewrite orb_false_r | |].
  - by eexists _, _.
  - exists p, (c :: u). split_and!; [done | done |].
    intros Hp. destruct (formatETHPrice_toString_nonneg p Hp) as (wh & tr & ? & ? & Hf).
    exists wh, tr. split_and!; [done | done |].
    assert (Normal r = Normal (wh ++ "." ++ PriceSpec.shown_fraction tr ++ " ETH"))
      as [= ->]; [|done].
    rewrite <- Hf. symmetry. exact Hprice.
Qed.

Lemma BuyRecordPage_mint_control_witness :
  BuySpec.stats_of (BuyPage.BuyRecordPage BuySpec.on_sale)
  = Some (BuyPage.MintControl "Mint ALB" false "0.05 ETH" 4 5)
  /\ BuyPage.isConnected BuySpec.on_sale = true
  /\ (4 < 5)%Z.
Proof.
  assert (BuySpec.stats_of (BuyPage.BuyRecordPage BuySpec.on_sale)
          = Some (BuyPage.MintControl "Mint ALB" false "0.05 ETH" 4 5)) as H
    by reflexivity.
  split; [exact H|].
  pose proof (BuyRecordPage_mint_control BuySpec.on_sale _ _ _ _ _ H)
    as (Hc & Hlt & _).
  by split.
Defined.

(** X7. A record whose preview image URI is the empty string cannot be
    bought: although no read failed, the page renders the contract-error
    message, with whatever error text the read hook reports (none, when
    the read succeeded). *)
Theorem BuyRecordPage_empty_preview (st : BuyPage.PageState)
    (data : BuyPage.RecordEmitData) (p s n : Z) :
  BuyPage.isRecordEmitDataLoading st = false ->
  BuyPage.rc_isLoading (BuyPage.readContracts st) = false ->
  BuyPage.recordEmitData st = Some data ->
  is_Some (BuyPage.artist data) -> is_Some (BuyPage.name data) ->
  is_Some (BuyPage.symbol data) ->
  BuyPage.rc_data (BuyPage.readContracts st) = Some (p, s, n, []) ->
  BuyPage.BuyRecordPage st
  = Normal (BuyPage.ErrorLoadingContractData
              (BuyPage.rc_error (BuyPage.readContracts st))).
Proof.
  intros Hel Hl Hdata [a Ha] [nm Hn] [sy Hs] Hrc.
  unfold BuyPage.BuyRecordPage, BuyPage.useContractData.
  rewrite Hel, Hrc, Hdata. cbn. rewrite Hl.
  destruct data as [da dn ds]. cbn in Ha, Hn, Hs. subst. cbn.
  by destruct (BuyPage.rc_isError _).
Qed.

Lemma BuyRecordPage_empty_preview_witness :
  BuyPage.BuyRecordPage BuySpec.without_preview
  = Normal (BuyPage.ErrorLoadingContractData None).
Proof.
  apply (BuyRecordPage_empty_preview BuySpec.without_preview
           {| BuyPage.artist := Some (lit "Artist"); BuyPage.name := Some (lit "Album");
              BuyPage.symbol := Some (lit "ALB") |} 50000000000000000 5 4);
    by (reflexivity || eexists).
Defined.

(** X8. Rendering the Buy page never throws, whatever the hooks return:
    every state is rendered as one of the four views. *)
Theorem BuyRecordPage_never_throws (st : BuyPage.PageState) :
  exists view, BuyPage.BuyRecordPage st = Normal view.
Proof. apply BuyRecordPage_normal. Qed.

(** ** The Store: when rendering throws *)

(** X9. The Store throws while rendering exactly when the query has
    answered with a [data] object that lacks [allRecordDeployeds], and
    what it throws is a TypeError; a missing response or a response
    without [data] is rendered as an empty catalog. *)
Theorem Store_throws_iff (q : Store.Query) (e : JsError) :
  Store.Store q = Throw e
  <-> e = TypeError
      /\ exists response payload,
           Store.data q = Some response
           /\ Store.r_data response = Some payload
           /\ Store.allRecordDeployeds payload = None.
Proof.
  unfold Store.Store, Store.records.
  destruct (Store.data q) as [response|] eqn:Hdata; cbn.
  - destruct (Store.r_data response) as [payload|] eqn:Hresp; cbn.
    + destruct (Store.allRecordDeployeds payload) as [nodes|] eqn:Hnodes; cbn.
      * split; [done|]. intros (_ & r & pl & Hr & Hpl & Hnone).
        injection Hr as <-. rewrite Hresp in Hpl. injection Hpl as <-. congruence.
      * split; [|by intros [-> _]].
        intros [= <-]. split; [done|]. by exists response, payload.
    + split; [done|]. intros (_ & r & pl & Hr & Hpl & _).
      injection Hr as <-. congruence.
  - split; [done|]. by intros (_ & r & pl & ? & _).
Qed.

(** ** My Records: addresses, the token map, keys and messages *)

(** X10. White space around an indexed address does not matter: an
    address is normalized to what its trimmed form is normalized to. *)
Theorem normalizeAddress_trim (getAddress : jsstring -> completion jsstring)
    (raw : jsstring) :
  MyRecords.normalizeAddress getAddress (Some raw)
  = MyRecords.normalizeAddress getAddress (Some (JsString.trim raw)).
Proof.
  unfold MyRecords.normalizeAddress.
  destruct raw as [|c raw]; [done|].
  destruct (JsString.trim (c :: raw)) as [|c' t] eqn:Htrim; [done|].
  by rewrite <- Htrim, trim_idemp, Htrim.
Qed.

(** X11. After a successful batched read the token map holds nothing
    stale and nothing empty: each entry is keyed by the lowercased
    address of a sanitized record and holds the non-empty list that the
    read of that record returned. *)
Theorem ownedTokens_map_entries (sanitized : list MyRecords.SanitizedRecord)
    (readResults : list MyRecords.ReadResult)
    (state : gmap jsstring (list Z) * list MyRecords.ConsoleEntry)
    (key : jsstring) (tokenIds : list Z) :
  fst (MyRecords.ownedTokens_effect true (Some readResults) sanitized state) !! key
  = Some tokenIds ->
  tokenIds <> []
  /\ exists i rec,
       sanitized !! i = Some rec
       /\ key = MyRecords.toLowerCase (MyRecords.s_contractAddress rec)
       /\ readResults !! i = Some (MyRecords.ReadSuccess (Some tokenIds)).
Proof.
  unfold MyRecords.ownedTokens_effect.
  change (fold_left _ _ _)
    with (CollectionSpec.ownedTokens_after sanitized readResults (snd state)
            (length sanitized)).
  intros (Hne & i & rec & _ & Hrec & <- & Hread)%ownedTokens_after_sound; [|done].
  split; [done|]. exists i, rec. split_and!; [done | done |].
  unfold CollectionSpec.tokens_read in Hread.
  destruct (readResults !! i) as [[[ids|]|e]|]; congruence.
Qed.

Lemma ownedTokens_map_entries_witness :
  fst (MyRecords.ownedTokens_effect true
         (Some [MyRecords.ReadSuccess (Some [7%Z])])
         [ViemSample.entry ViemSample.record_A "One"] (∅, []))
  !! MyRecords.toLowerCase ViemSample.record_A = Some [7%Z]
  /\ [7%Z] <> [].
Proof.
  assert (fst (MyRecords.ownedTokens_effect true
                 (Some [MyRecords.ReadSuccess (Some [7%Z])])
                 [ViemSample.entry ViemSample.record_A "One"] (∅, []))
          !! MyRecords.toLowerCase ViemSample.record_A = Some [7%Z]) as H
    by (by vm_compute).
  split; [exact H|].
  exact (proj1 (ownedTokens_map_entries _ _ _ _ _ H)).
Defined.

(** X12. Cards of different (contract, token) pairs never share a React
    key or a link: as long as the contract addresses contain neither ["-"]
    nor ["/"], equal keys, and likewise equal links, mean the same
    contract address and the same token id. *)
Theorem card_key_injective (item1 item2 : MyRecords.OwnedItem) :
  ("-"%char ∉ MyRecords.o_contractAddress item1) ->
  ("-"%char ∉ MyRecords.o_contractAddress item2) ->
  ("/"%char ∉ MyRecords.o_contractAddress item1) ->
  ("/"%char ∉ MyRecords.o_contractAddress item2) ->
  MyRecordsCards.key (MyRecordsCards.card item1)
  = MyRecordsCards.key (MyRecordsCards.card item2)
  \/ MyRecordsCards.href (MyRecordsCards.card item1)
     = MyRecordsCards.href (MyRecordsCards.card item2) ->
  MyRecords.o_contractAddress item1 = MyRecords.o_contractAddress item2
  /\ MyRecords.o_tokenId item1 = MyRecords.o_tokenId item2.
Proof.
  intros Hd1 Hd2 Hs1 Hs2 [Hkey|Hhref].
  - apply (app_cons_inj_first "-"%char) in Hkey as [Ha Hid]; [|done..].
    split; [done|]. by apply toString_inj.
  - cbn [MyRecordsCards.href MyRecordsCards.card] in Hhref.
    apply (app_inv_head (lit "/owned-record/")) in Hhref.
    apply (app_cons_inj_first "/"%char) in Hhref as [Ha Hid]; [|done..].
    split; [done|]. by apply toString_inj.
Qed.

Lemma card_key_injective_witness :
  ("-"%char ∉ ViemSample.record_A) /\ ("/"%char ∉ ViemSample.record_A)
  /\ MyRecords.o_tokenId
       (CollectionSpec.item_of (ViemSample.entry ViemSample.record_A "One") 7)
     = 7%Z.
Proof.
  assert ("-"%char ∉ ViemSample.record_A) as Hd
    by (apply (bool_decide_unpack _); by vm_compute).
  assert ("/"%char ∉ ViemSample.record_A) as Hs
    by (apply (bool_decide_unpack _); by vm_compute).
  split; [exact Hd|]. split; [exact Hs|].
  exact (proj2 (card_key_injective
                  (CollectionSpec.item_of (ViemSample.entry ViemSample.record_A "One") 7)
                  (CollectionSpec.item_of (ViemSample.entry ViemSample.record_A "Two") 7)
                  Hd Hd Hs Hs (or_introl eq_refl))).
Defined.

(** X13. The My Records view always renders its grid, also while loading
    and after an error, so items already shown stay on screen; and it
    shows the message that no records are owned only when there is no
    item and neither the loading line nor the error line is shown. *)
Theorem MyRecords_render_shape (st : MyRecords.RenderState) :
  (MyRecords.Grid (MyRecords.items st) ∈ MyRecords.render st)
  /\ ((MyRecords.NoRecordsMessage ∈ MyRecords.render st) ->
      MyRecords.items st = []
      /\ (MyRecords.LoadingMessage ∉ MyRecords.render st)
      /\ forall errorMsg, MyRecords.FailedToLoad errorMsg ∉ MyRecords.render st).
Proof.
  unfold MyRecords.render.
  destruct (MyRecords.isFetching st), (MyRecords.isReading st),
    (match MyRecords.fetchError st with Some (_ :: _) => true | _ => false end),
    (MyRecords.readError st), (MyRecords.items st) as [|item items'];
    cbn; (split; [apply list_elem_of_In; cbn; intuition|]);
    intros Hin%list_elem_of_In; cbn in Hin;
    try (exfalso; intuition discriminate).
  split_and!; [done | intros H%list_elem_of_In | intros errorMsg H%list_elem_of_In];
    cbn in H; intuition discriminate.
Qed.

Lemma MyRecords_render_shape_witness :
  (MyRecords.NoRecordsMessage ∈ MyRecords.render CollectionSpec.empty_collection)
  /\ MyRecords.items CollectionSpec.empty_collection = [].
Proof.
  assert (MyRecords.NoRecordsMessage ∈ MyRecords.render CollectionSpec.empty_collection)
    as H by (apply list_elem_of_In; right; left; reflexivity).
  split; [exact H|].
  exact (proj1 (proj2 (MyRecords_render_shape CollectionSpec.empty_collection) H)).
Defined.

(** ** The Owner page: ties, repeated renders, the route and the fetch *)

Section MoreSort.
Context {A : Type} (comparefn : A -> A -> Z) (rank : A -> Z).
Hypothesis comparefn_rank :
  forall a b, (comparefn a b <= 0)%Z <-> (rank a <= rank b)%Z.

Lemma filter_insert k x l :
  filter (fun y => rank y = k) (JsArray.insert comparefn x l)
  = filter (fun y => rank y = k) (x :: l).
Proof.
  induction l as [|y l IH]; [done|]. cbn [JsArray.insert].
  destruct (Z.leb_spec (comparefn x y) 0) as [Hle|Hgt]; [done|].
  assert (rank y < rank x)%Z as Hlt.
  { destruct (Z.lt_ge_cases (rank y) (rank x)) as [|H%Z.ge_le_iff%Z.ge_le]; [done|].
    apply comparefn_rank in H. lia. }
  rewrite (filter_cons _ y), IH, !(filter_cons _ x), (filter_cons _ y).
  repeat case_decide; (done || lia).
Qed.

(** Elements of one rank keep the order they had. *)
Lemma sort_stable k l :
  filter (fun y => rank y = k) (JsArray.sort comparefn l)
  = filter (fun y => rank y = k) l.
Proof.
  induction l as [|x l IH]; [done|]. cbn [JsArray.sort foldr].
  fold (JsArray.sort comparefn l).
  by rewrite filter_insert, !(filter_cons _ x), IH.
Qed.

Lemma sort_sorted_id l :
  StronglySorted (fun a b => rank a <= rank b)%Z l -> JsArray.sort comparefn l = l.
Proof.
  induction 1 as [|x l Hl IH Hx]; [done|]. cbn [JsArray.sort foldr].
  fold (JsArray.sort comparefn l). rewrite IH.
  destruct l as [|y l]; [done|]. cbn [JsArray.insert].
  apply Forall_cons in Hx as [Hxy _]. apply comparefn_rank in Hxy.
  by destruct (Z.leb_spec (comparefn x y) 0); [|lia].
Qed.

Lemma sort_idemp l :
  JsArray.sort comparefn (JsArray.sort comparefn l) = JsArray.sort comparefn l.
Proof. apply sort_sorted_id, (sort_sorted comparefn rank comparefn_rank). Qed.

End MoreSort.

(** X14. Songs with the same track number, a missing number counting as
    0, are rendered in the order they have in the metadata document. *)
Theorem tracks_ties_keep_order (songs_ : list OwnerPage.Song) (k : Z) :
  filter (fun song => OwnerSpec.track_number song = k)
    (JsArray.sort OwnerPage.compareTracks songs_)
  = filter (fun song => OwnerSpec.track_number song = k) songs_.
Proof. apply sort_stable, compareTracks_rank. Qed.

(** X15. The sort of a render is done in place, on the array the state
    holds; the renders that follow sort the sorted array again and show
    the same tracks in the same order. *)
Theorem tracks_sort_idempotent (window : Window) (metadata : OwnerPage.RecordMetadata) :
  OwnerPage.OwnerRecordPage_tracks window (Some (OwnerSamples.after_render metadata))
  = OwnerPage.OwnerRecordPage_tracks window (Some metadata).
Proof.
  destruct metadata as [n a i d u [[|song songs_]|]]; [done| |done].
  unfold OwnerSamples.after_render. cbn [OwnerPage.songs fmap option_fmap option_map
    OwnerPage.name OwnerPage.m_artist OwnerPage.image OwnerPage.description
    OwnerPage.animation_url OwnerPage.OwnerRecordPage_tracks].
  destruct (JsArray.sort OwnerPage.compareTracks (song :: songs_)) as [|song' sorted]
    eqn:Hsorted.
  - pose proof (sort_Permutation OwnerPage.compareTracks (song :: songs_)) as Hp.
    rewrite Hsorted in Hp. by apply Permutation_nil_l in Hp.
  - rewrite <- Hsorted.
    rewrite (sort_idemp _ _ compareTracks_rank). reflexivity.
Qed.

(** X16. The Owner page converts the token id of the route while
    rendering: with a token id that is no integer literal it throws a
    SyntaxError whatever the hooks hold, and with any other it renders. *)
Theorem OwnerRecordPage_route (window : Window) (params : OwnerRecord.Params)
    (read : OwnerRecord.TokenUriRead) (st : OwnerRecord.MetaState) :
  match JsBigInt.StringToBigInt (OwnerRecord.tokenId params) with
  | None => OwnerRecord.OwnerRecordPage window params read st = Throw SyntaxError
  | Some _ => exists view, OwnerRecord.OwnerRecordPage window params read st = Normal view
  end.
Proof.
  unfold OwnerRecord.OwnerRecordPage, OwnerRecord.toBigIntId, JsBigInt.BigInt.
  destruct (JsBigInt.StringToBigInt _); [by eexists | done].
Qed.

(** X17. When the metadata fetch fails, in whichever way, the run of the
    effect ends with nothing loading and the error text set to the
    message of what was thrown, or to "Failed to load metadata" when that
    has none, while the metadata loaded before is kept: the page goes on
    showing its title and tracks next to the error text, which is the one
    of the token URI read if that failed too. *)
Theorem OwnerRecordPage_fetch_failure (window : Window)
    (params : OwnerRecord.Params) (read : OwnerRecord.TokenUriRead)
    (fetch : jsstring -> OwnerRecord.FetchOutcome) (st : OwnerRecord.MetaState)
    (uri : jsstring) (message : option jsstring) (view : OwnerRecord.View) :
  OwnerRecord.tokenUri read = Some uri -> uri <> [] ->
  OwnerRecord.isTokenUriLoading read = false ->
  OwnerRecord.fetchMetadata window uri fetch = inr message ->
  OwnerRecord.OwnerRecordPage window params read
    (OwnerRecord.runEffect window read fetch st) = Normal view ->
  OwnerRecord.runEffect window read fetch st
  = {| OwnerRecord.metadata := OwnerRecord.metadata st;
       OwnerRecord.isLoadingMeta := false;
       OwnerRecord.metaError := Some (OwnerRecord.messageOf message) |}
  /\ OwnerRecord.messageOf message <> []
  /\ OwnerRecord.errorText view
     = Some (default (OwnerRecord.messageOf message) (OwnerRecord.tokenUriError read))
  /\ OwnerRecord.cover view <> OwnerRecord.LoadingCover
  /\ OwnerRecord.tracks view
     = OwnerPage.OwnerRecordPage_tracks window (OwnerRecord.metadata st)
  /\ OwnerRecord.pageTitle view
     = match OwnerRecord.metadata st with
       | Some m => OwnerRecord.TitleText (OwnerPage.name m)
       | None => OwnerRecord.LoadingTitle
       end.
Proof.
  intros Huri Hne Hload Hfetch.
  assert (OwnerRecord.runEffect window read fetch st
          = {| OwnerRecord.metadata := OwnerRecord.metadata st;
               OwnerRecord.isLoadingMeta := false;
               OwnerRecord.metaError := Some (OwnerRecord.messageOf message) |}) as ->.
  { unfold OwnerRecord.runEffect. rewrite Huri, Hload, Hfetch. by destruct uri. }
  assert (OwnerRecord.messageOf message <> []) as Hmsg
    by (by destruct message as [[|c m]|]).
  unfold OwnerRecord.OwnerRecordPage.
  destruct (OwnerRecord.toBigIntId _); cbn; [|done].
  intros [= <-]. cbn. rewrite Hload. cbn.
  split_and!; try done.
  - destruct (OwnerRecord.tokenUriError read); [done|]. cbn.
    by destruct (OwnerRecord.messageOf message).
  - by destruct (_ <$> _).
Qed.

Lemma OwnerRecordPage_fetch_failure_witness :
  OwnerRecord.fetchMetadata UrlSpec.shop_window "ipfs://token/1.json" OwnerSamples.gateway_down
  = inr (Some (lit "Failed to fetch metadata: 502"))
  /\ OwnerRecord.runEffect UrlSpec.shop_window OwnerSamples.token_uri_read
       OwnerSamples.gateway_down OwnerSamples.album_loaded
     = {| OwnerRecord.metadata := OwnerRecord.metadata OwnerSamples.album_loaded;
          OwnerRecord.isLoadingMeta := false;
          OwnerRecord.metaError := Some (lit "Failed to fetch metadata: 502") |}.
Proof.
  split; [reflexivity|].
  destruct (OwnerRecord.OwnerRecordPage UrlSpec.shop_window OwnerSamples.token_route
              OwnerSamples.token_uri_read
              (OwnerRecord.runEffect UrlSpec.shop_window OwnerSamples.token_uri_read
                 OwnerSamples.gateway_down OwnerSamples.album_loaded)) as [view|e] eqn:Hview;
    [|discriminate Hview].
  exact (proj1 (OwnerRecordPage_fetch_failure UrlSpec.shop_window OwnerSamples.token_route
                  OwnerSamples.token_uri_read OwnerSamples.gateway_down OwnerSamples.album_loaded
                  "ipfs://token/1.json" (Some (lit "Failed to fetch metadata: 502")) view
                  eq_refl ltac:(discriminate) eq_refl eq_refl Hview)).
Defined.

(** X18. With a token URI that is missing or the empty string no fetch is
    made and the state is left as it is; from the initial state, once the
    read has settled, the page then shows the "Loading…" title for good,
    over the placeholder cover and the "no tracks" line, with no error
    text unless the read itself failed. *)
Theorem OwnerRecordPage_no_token_uri (window : Window)
    (params : OwnerRecord.Params) (read : OwnerRecord.TokenUriRead)
    (fetch : jsstring -> OwnerRecord.FetchOutcome) (st : OwnerRecord.MetaState)
    (view : OwnerRecord.View) :
  OwnerRecord.tokenUri read = None \/ OwnerRecord.tokenUri read = Some [] ->
  OwnerRecord.isTokenUriLoading read = false ->
  OwnerRecord.OwnerRecordPage window params read
    (OwnerRecord.runEffect window read fetch OwnerRecord.initialMetaState)
  = Normal view ->
  OwnerRecord.runEffect window read fetch st = st
  /\ OwnerRecord.pageTitle view = OwnerRecord.LoadingTitle
  /\ OwnerRecord.cover view = OwnerRecord.PlaceholderCover
  /\ OwnerRecord.tracks view = OwnerPage.NoTracksFound
  /\ OwnerRecord.errorText view = OwnerRecord.tokenUriError read.
Proof.
  intros Huri Hload.
  assert (forall st, OwnerRecord.runEffect window read fetch st = st) as Hrun.
  { intros st'. unfold OwnerRecord.runEffect. by destruct Huri as [-> | ->]. }
  rewrite !Hrun. unfold OwnerRecord.OwnerRecordPage.
  destruct (OwnerRecord.toBigIntId _); cbn; [|done].
  intros [= <-]. cbn. rewrite Hload. cbn.
  split_and!; try done. by destruct (OwnerRecord.tokenUriError read).
Qed.

Lemma OwnerRecordPage_no_token_uri_witness :
  OwnerRecord.tokenUri OwnerSamples.empty_uri_read = Some []
  /\ OwnerRecord.runEffect UrlSpec.shop_window OwnerSamples.empty_uri_read
       OwnerSamples.gateway_down OwnerSamples.album_loaded
     = OwnerSamples.album_loaded.
Proof.
  split; [reflexivity|].
  destruct (OwnerRecord.OwnerRecordPage UrlSpec.shop_window OwnerSamples.token_route
              OwnerSamples.empty_uri_read
              (OwnerRecord.runEffect UrlSpec.shop_window OwnerSamples.empty_uri_read
                 OwnerSamples.gateway_down OwnerRecord.initialMetaState))
    as [view|e] eqn:Hview; [|discriminate Hview].
  exact (proj1 (OwnerRecordPage_no_token_uri UrlSpec.shop_window OwnerSamples.token_route
                  OwnerSamples.empty_uri_read OwnerSamples.gateway_down OwnerSamples.album_loaded
                  view (or_intror eq_refl) eq_refl Hview)).
Defined.

(** X19. The token id written into a link is read back unchanged: the
    last segment of the link My Records gives an owned card, and of the
    default link of an owned card with a bigint token id, is converted by
    the Owner page's [toBigIntId] to that very token id. *)
Theorem link_token_id_round_trip (Number_toString : RecordBox.number -> jsstring)
    (item : MyRecords.OwnedItem) (props : RecordBox.Props) (id : Z) :
  (exists segment,
     MyRecordsCards.href (MyRecordsCards.card item)
     = "/owned-record/" ++ MyRecords.o_contractAddress item ++ "/" ++ segment
     /\ OwnerRecord.toBigIntId (OwnerRecord.StringId segment)
        = Normal (MyRecords.o_tokenId item))
  /\ (RecordBox.variant props = RecordBox.Owned (RecordBox.IdBigInt id) ->
      exists segment,
        RecordBoxLinks.defaultHref Number_toString None props
        = "/owner/" ++ RecordBox.contractAddress props ++ "/" ++ segment
        /\ OwnerRecord.toBigIntId (OwnerRecord.StringId segment) = Normal id).
Proof.
  assert (forall z, OwnerRecord.toBigIntId (OwnerRecord.StringId (JsBigInt.toString z))
                    = Normal z) as Hback.
  { intros z. unfold OwnerRecord.toBigIntId, JsBigInt.BigInt.
    by rewrite StringToBigInt_toString. }
  split.
  - by exists (JsBigInt.toString (MyRecords.o_tokenId item)).
  - intros Hv. exists (JsBigInt.toString id). split; [|done].
    unfold RecordBoxLinks.defaultHref. by rewrite Hv.
Qed.

Lemma link_token_id_round_trip_witness :
  RecordBox.variant RecordBoxSpec.owned_card = RecordBox.Owned (RecordBox.IdBigInt 1)
  /\ exists segment,
       RecordBoxLinks.defaultHref (fun _ => []) None RecordBoxSpec.owned_card
       = "/owner/" ++ RecordBox.contractAddress RecordBoxSpec.owned_card ++ "/" ++ segment
       /\ OwnerRecord.toBigIntId (OwnerRecord.StringId segment) = Normal 1%Z.
Proof.
  split; [reflexivity|].
  exact (proj2 (link_token_id_round_trip (fun _ => [])
                  (CollectionSpec.item_of (ViemSample.entry ViemSample.record_A "One") 1)
                  RecordBoxSpec.owned_card 1) eq_refl).
Defined.

(** ** The record card: the image shown, and when rendering throws *)

Lemma resolveIpfsUrl_nonempty window s : resolveIpfsUrl window s <> [].
Proof. unfold resolveIpfsUrl. by case_decide. Qed.

(** X20. Once the on-chain read has delivered a non-empty URI without an
    error and the image URL has been resolved from it, the card shows the
    image at that URL with the record's name as its alternative text,
    whatever the state held before.  The URL is never empty: for a market
    card it is the resolved form of the on-chain URI itself and nothing is
    fetched; for an owned card the metadata was fetched from the resolved
    form of the on-chain URI with an ok status and a non-empty [image]
    field, and the URL is the resolved form of that field. *)
Theorem RecordBox_image (window : Window) (props : RecordBox.Props)
    (read : RecordBox.ReadContract) (fetch : jsstring -> RecordBox.FetchOutcome)
    (st : RecordBox.ImageState) (cfg : RecordBox.ReadConfig) (uri url : jsstring) :
  RecordBox.readConfig props = Normal cfg ->
  RecordBox.data read = Some uri -> uri <> [] ->
  RecordBox.isLoading read = false -> RecordBox.error read = None ->
  RecordBox.resolveImage window (RecordBox.variant props) uri fetch = Normal url ->
  RecordBox.RecordBox props read (RecordBox.runEffect window props read fetch st)
  = Normal (RecordBox.RecordImageAt url (RecordBox.name props))
  /\ url <> []
  /\ (RecordBox.variant props = RecordBox.Market -> url = resolveIpfsUrl window uri)
  /\ (forall tokenId, RecordBox.variant props = RecordBox.Owned tokenId ->
      exists status rawImage,
        fetch (resolveIpfsUrl window uri)
        = RecordBox.Response true status (Normal (Some (Some rawImage)))
        /\ rawImage <> [] /\ url = resolveIpfsUrl window rawImage).
Proof.
  intros Hcfg Hdata Hne Hload Herr Hres.
  assert (url <> []
          /\ (RecordBox.variant props = RecordBox.Market -> url = resolveIpfsUrl window uri)
          /\ (forall tokenId, RecordBox.variant props = RecordBox.Owned tokenId ->
              exists status rawImage,
                fetch (resolveIpfsUrl window uri)
                = RecordBox.Response true status (Normal (Some (Some rawImage)))
                /\ rawImage <> [] /\ url = resolveIpfsUrl window rawImage))
    as (Hurl & Hmarket & Howned).
  { unfold RecordBox.resolveImage in Hres.
    destruct (RecordBox.variant props) as [|tokenId].
    - injection Hres as <-. split_and!; [apply resolveIpfsUrl_nonempty|done|done].
    - destruct (fetch _) as [e|[|] status [[[[|c rawImage]|]|]|e]]; try done.
      cbn in Hres. injection Hres as <-.
      split_and!; [apply resolveIpfsUrl_nonempty|done|].
      intros _ _. by exists status, (c :: rawImage). }
  split; [|done].
  assert (RecordBox.runEffect window props read fetch st
          = {| RecordBox.imageUrl := Some url; RecordBox.isLoadingImage := false;
               RecordBox.imageError := None |}) as ->.
  { unfold RecordBox.runEffect. rewrite Hdata, Hload, Hres. by destruct uri. }
  unfold RecordBox.RecordBox, RecordBox.useRecordImage. rewrite Hcfg, Hload, Herr.
  cbn. by destruct url.
Qed.

Lemma RecordBox_image_witness :
  RecordBox.resolveImage UrlSpec.shop_window (RecordBox.variant RecordBoxSpec.owned_card)
    "ipfs://token/1.json" RecordBoxSamples.metadata_served
  = Normal (resolveIpfsUrl UrlSpec.shop_window "ipfs://img/1.png")
  /\ RecordBox.RecordBox RecordBoxSpec.owned_card RecordBoxSpec.token_uri_read
       (RecordBox.runEffect UrlSpec.shop_window RecordBoxSpec.owned_card
          RecordBoxSpec.token_uri_read RecordBoxSamples.metadata_served
          RecordBox.initialImageState)
     = Normal (RecordBox.RecordImageAt (resolveIpfsUrl UrlSpec.shop_window "ipfs://img/1.png")
                 "One").
Proof.
  split; [reflexivity|].
  exact (proj1 (RecordBox_image UrlSpec.shop_window RecordBoxSpec.owned_card
                  RecordBoxSpec.token_uri_read RecordBoxSamples.metadata_served
                  RecordBox.initialImageState (RecordBox.tokenURI 1)
                  "ipfs://token/1.json" (resolveIpfsUrl UrlSpec.shop_window "ipfs://img/1.png")
                  eq_refl eq_refl ltac:(discriminate) eq_refl eq_refl eq_refl)).
Defined.

(** X21. Rendering a record card throws in one case only: the card is an
    owned one whose token id cannot be converted to a bigint, and what is
    thrown is what the conversion throws, a RangeError for a number that
    is no integer and a SyntaxError for a string that is no integer
    literal.  Nothing the read or the image state holds makes it throw. *)
Theorem RecordBox_throws_iff (props : RecordBox.Props) (read : RecordBox.ReadContract)
    (st : RecordBox.ImageState) (e : JsError) :
  (RecordBox.RecordBox props read st = Throw e
   <-> exists tokenId, RecordBox.variant props = RecordBox.Owned tokenId
                       /\ RecordBox.toBigIntId tokenId = Throw e)
  /\ (RecordBox.RecordBox props read st = Throw e ->
      (e = RangeError /\ RecordBox.variant props
                         = RecordBox.Owned (RecordBox.IdNumber RecordBox.NonIntegral))
      \/ (e = SyntaxError
          /\ exists id, RecordBox.variant props = RecordBox.Owned (RecordBox.IdString id)
                        /\ JsBigInt.StringToBigInt id = None)).
Proof.
  assert (RecordBox.RecordBox props read st = Throw e
          <-> exists tokenId, RecordBox.variant props = RecordBox.Owned tokenId
                              /\ RecordBox.toBigIntId tokenId = Throw e) as Hiff.
  { unfold RecordBox.RecordBox, RecordBox.useRecordImage, RecordBox.readConfig.
    destruct (RecordBox.variant props) as [|tokenId]; cbn.
    - split; [done|by intros (? & [=] & _)].
    - destruct (RecordBox.toBigIntId tokenId) as [id|e'] eqn:Hid; cbn.
      + split; [done|]. intros (? & [= <-] & H). congruence.
      + split.
        * intros [= <-]. by exists tokenId.
        * intros (? & [= <-] & H). congruence. }
  split; [done|].
  intros (tokenId & Hv & Hid)%Hiff. rewrite Hv.
  destruct tokenId as [id|[z|]|id]; cbn in Hid; [done|done| |].
  - injection Hid as <-. by left.
  - unfold JsBigInt.BigInt in Hid.
    destruct (JsBigInt.StringToBigInt id) eqn:Hparse; [done|].
    injection Hid as <-. right. split; [done|]. by exists id.
Qed.
